(** * Raven: a shallow embedding of [src/raven/__main__.py]

    Python [str] values are lists of Unicode code points ([list N]);
    Python [bytes] values are lists of [Byte.byte].  The standard-library
    helpers the handler calls ([os.path.normpath], [os.path.join],
    [os.path.splitext], [bytes.split], [re.sub], [re.search], [ipaddress],
    [int], UTF-8 codecs) are transcribed from CPython 3.11 (POSIX). *)

From Stdlib Require Import List Bool Arith Lia ZArith NArith String Ascii.
From Stdlib Require Import Numbers.DecimalString Numbers.DecimalNat.
Import ListNotations.

Open Scope list_scope.

(** ** Generic sequence operations ([str] and [bytes] methods) *)

Section Seq.
Context {A : Type} (eqb : A -> A -> bool).

Fixpoint seq_eqb (x y : list A) : bool :=
  match x, y with
  | [], [] => true
  | a :: x', b :: y' => eqb a b && seq_eqb x' y'
  | _, _ => false
  end.

(** [s.startswith(p)] *)
Fixpoint startswith (s p : list A) {struct p} : bool :=
  match p, s with
  | [], _ => true
  | a :: p', b :: s' => eqb a b && startswith s' p'
  | _ :: _, [] => false
  end.

Definition endswith (s p : list A) : bool :=
  startswith (rev s) (rev p).

(** [sub in s] *)
Fixpoint contains (sub s : list A) : bool :=
  startswith s sub ||
  match s with
  | [] => false
  | _ :: s' => contains sub s'
  end.

(** [s.split(sep)] for a non-empty [sep]: the text is scanned from the
    left and cut at each occurrence of [sep], occurrences not
    overlapping.  [cur] holds the piece read so far; a piece is cut as
    soon as it ends with [sep] (all occurrences have the same length, so
    the first one to end is the leftmost one). *)
Fixpoint split_go (sep s cur : list A) : list (list A) :=
  match s with
  | [] => [cur]
  | c :: s' =>
      let cur' := cur ++ [c] in
      if endswith cur' sep
      then firstn (List.length cur' - List.length sep) cur' :: split_go sep s' []
      else split_go sep s' cur'
  end.

Definition split (s sep : list A) : list (list A) := split_go sep s [].

(** [s.split(sep, 1)] unpacked into two names: [None] when [sep] does
    not occur, where Python's [a, b = ...] raises [ValueError]. *)
Fixpoint split1_go (sep s cur : list A) : option (list A * list A) :=
  match s with
  | [] => None
  | c :: s' =>
      let cur' := cur ++ [c] in
      if endswith cur' sep
      then Some (firstn (List.length cur' - List.length sep) cur', s')
      else split1_go sep s' cur'
  end.

Definition split1 (s sep : list A) : option (list A * list A) :=
  split1_go sep s [].

(** [sep.join(xs)] *)
Fixpoint join_with (sep : list A) (xs : list (list A)) : list A :=
  match xs with
  | [] => []
  | [x] => x
  | x :: xs' => x ++ sep ++ join_with sep xs'
  end.

(** [xs[i]] on a list: [None] is Python's [IndexError]. *)
Definition index {B} (xs : list B) (i : nat) : option B := nth_error xs i.
End Seq.

(** A Python [str]: a sequence of code points. *)
Definition str := list N.
(** A Python [bytes]: a sequence of octets. *)
Definition bytes := list Byte.byte.

Definition str_eqb : str -> str -> bool := seq_eqb N.eqb.
Definition bytes_eqb : bytes -> bytes -> bool := seq_eqb Byte.eqb.

(** Literals: an ASCII Rocq string read as [str] or as [bytes]. *)
Definition u (s : string) : str := map Byte.to_N (list_byte_of_string s).
Definition b (s : string) : bytes := list_byte_of_string s.

(** Code points used below. *)
Definition SLASH : N := 47.
Definition DOT : N := 46.
Definition HYPHEN : N := 45.
Definition UNDERSCORE : N := 95.
Definition QUOTE : N := 34.
Definition NEWLINE : N := 10.

(** ** Unicode character classes *)

Section Unicode.

(** [str.isalnum] on one code point, from the Unicode database.  The
  regular expression class [\w] of a [str] pattern is
  [isalnum(c) or c == '_'] (CPython's [SRE_UNI_IS_WORD]). *)
Variable isalnum : N -> bool.

Definition is_word (c : N) : bool := isalnum c || N.eqb c UNDERSCORE.

(** ** [sanitize_filename] (lines 160-163) *)

(** [posixpath.normpath]: the loop over the components, with
  [new_comps] kept reversed (its last element first). *)
Fixpoint normpath_comps (initial_slashes : nat) (comps new_comps : list str)
: list str :=
match comps with
| [] => new_comps
| comp :: rest =>
    if str_eqb comp [] || str_eqb comp [DOT]
    then normpath_comps initial_slashes rest new_comps
    else if negb (str_eqb comp [DOT; DOT])
            || (Nat.eqb initial_slashes 0 && match new_comps with [] => true | _ => false end)
            || match new_comps with top :: _ => str_eqb top [DOT; DOT] | [] => false end
    then normpath_comps initial_slashes rest (comp :: new_comps)
    else normpath_comps initial_slashes rest
           (match new_comps with _ :: st => st | [] => [] end)
end.

Definition normpath (path : str) : str :=
match path with
| [] => [DOT]
| _ =>
    let initial_slashes :=
      if startswith N.eqb path [SLASH] then
        if startswith N.eqb path [SLASH; SLASH]
           && negb (startswith N.eqb path [SLASH; SLASH; SLASH])
        then 2 else 1
      else 0 in
    let comps := split N.eqb path [SLASH] in
    let new_comps := normpath_comps initial_slashes comps [] in
    let p := repeat SLASH initial_slashes
             ++ join_with [SLASH] (rev new_comps) in
    match p with [] => [DOT] | _ => p end
end.

(** [re.sub(r'[^\w.-]', '_', s)]: one character at a time. *)
Definition keep_char (c : N) : bool :=
is_word c || N.eqb c DOT || N.eqb c HYPHEN.

Definition sub_char (c : N) : N := if keep_char c then c else UNDERSCORE.

Definition sanitize_filename (filename : str) : str :=
let normalized := normpath filename in
let sanitized := map sub_char normalized in
sanitized.

End Unicode.

(** ASCII part of [str.isalnum], used to run the model on ASCII input
    (on code points below 128 it agrees with the Unicode database). *)
Definition ascii_isalnum (c : N) : bool :=
  (N.leb 48 c && N.leb c 57) || (N.leb 65 c && N.leb c 90)
  || (N.leb 97 c && N.leb c 122).

(** ** [prevent_clobber] (lines 167-177) *)

(** [posixpath.join(a, b)] *)
Definition os_path_join (a b : str) : str :=
  if startswith N.eqb b [SLASH] then b
  else if match a with [] => true | _ => false end || endswith N.eqb a [SLASH]
  then a ++ b
  else a ++ [SLASH] ++ b.

(** [s.rfind(c)]: the last index of [c], or [-1]. *)
Fixpoint rfind_go (l : str) (c : N) (i best : Z) : Z :=
  match l with
  | [] => best
  | x :: t => rfind_go t c (i + 1) (if N.eqb x c then i else best)
  end.

Definition rfind (l : str) (c : N) : Z := rfind_go l c 0 (-1).

(** [genericpath._splitext(p, '/', None, '.')]: the [while] loop over
    [filenameIndex] from [sepIndex + 1] to [dotIndex] returns as soon as it
    meets a character other than ['.'], so it returns exactly when some
    character of [p[sepIndex+1:dotIndex]] is not ['.']. *)
Definition splitext (p : str) : str * str :=
  let sepIndex := rfind p SLASH in
  let dotIndex := rfind p DOT in
  if Z.ltb sepIndex dotIndex then
    let leading := firstn (Z.to_nat (dotIndex - (sepIndex + 1)))
                          (skipn (Z.to_nat (sepIndex + 1)) p) in
    if existsb (fun c => negb (N.eqb c DOT)) leading
    then (firstn (Z.to_nat dotIndex) p, skipn (Z.to_nat dotIndex) p)
    else (p, [])
  else (p, []).

(** [str(n)] for a natural number: its decimal digits. *)
Fixpoint uint_digits (d : Decimal.uint) : str :=
  match d with
  | Decimal.Nil => []
  | Decimal.D0 d => 48%N :: uint_digits d
  | Decimal.D1 d => 49%N :: uint_digits d
  | Decimal.D2 d => 50%N :: uint_digits d
  | Decimal.D3 d => 51%N :: uint_digits d
  | Decimal.D4 d => 52%N :: uint_digits d
  | Decimal.D5 d => 53%N :: uint_digits d
  | Decimal.D6 d => 54%N :: uint_digits d
  | Decimal.D7 d => 55%N :: uint_digits d
  | Decimal.D8 d => 56%N :: uint_digits d
  | Decimal.D9 d => 57%N :: uint_digits d
  end.

Definition str_of_nat (n : nat) : str := uint_digits (Nat.to_uint n).

(** The filesystem, as the set of paths that exist. *)
Definition path_exists (files : list str) (p : str) : bool :=
  existsb (str_eqb p) files.

(** The [while os.path.exists(file_path)] loop; [fuel] bounds the number
    of tests. *)
Fixpoint clobber_loop (fuel : nat) (files : list str)
    (upload_folder filename file_path : str) (counter : nat) : option str :=
  match fuel with
  | O => None
  | S fuel' =>
      if path_exists files file_path then
        let (base_name, file_extension) := splitext filename in
        let new_filename := base_name ++ [UNDERSCORE] ++ str_of_nat counter
                            ++ file_extension in
        clobber_loop fuel' files upload_folder filename
          (os_path_join upload_folder new_filename) (S counter)
      else Some file_path
  end.

(** [prevent_clobber(upload_folder, filename)] in the directory state
    [files].  The loop in the source is unbounded; the candidates it
    tests are pairwise distinct, so it stops after at most
    [length files + 1] tests, which is the bound given here
    ([prevent_clobber_fresh] shows [None] never comes out). *)
Definition prevent_clobber (files : list str) (upload_folder filename : str)
  : option str :=
  let file_path := os_path_join upload_folder filename in
  let counter := 1 in
  clobber_loop (S (List.length files)) files upload_folder filename file_path counter.

(** The path [prevent_clobber] tests at its [k]-th test: [k = 0] is the
    name itself, [k >= 1] the name with suffix [_k]. *)
Definition clobber_candidate (upload_folder filename : str) (k : nat) : str :=
  match k with
  | O => os_path_join upload_folder filename
  | S _ => os_path_join upload_folder
             (fst (splitext filename) ++ [UNDERSCORE] ++ str_of_nat k
              ++ snd (splitext filename))
  end.

(** ** [ipaddress] (CPython 3.11) and [restrict_access] (lines 23-50) *)

Definition COLON : N := 58.
Definition COMMA : N := 44.
Definition PERCENT : N := 37.

(** [str.isspace] on one code point. *)
Definition py_isspace (c : N) : bool :=
  (N.leb 9 c && N.leb c 13) || (N.leb 28 c && N.leb c 32) || N.eqb c 133
  || N.eqb c 160 || N.eqb c 5760 || (N.leb 8192 c && N.leb c 8202)
  || N.eqb c 8232 || N.eqb c 8233 || N.eqb c 8239 || N.eqb c 8287
  || N.eqb c 12288.

Fixpoint lstrip (s : str) : str :=
  match s with
  | c :: t => if py_isspace c then lstrip t else s
  | [] => []
  end.

(** [s.strip()] *)
Definition py_strip (s : str) : str := rev (lstrip (rev (lstrip s))).

Definition is_ascii_digit (c : N) : bool := N.leb 48 c && N.leb c 57.
Definition is_hex_digit (c : N) : bool :=
  is_ascii_digit c || (N.leb 65 c && N.leb c 70) || (N.leb 97 c && N.leb c 102).

(** [int(s, 10)] of ASCII digits. *)
Definition digits_value (s : str) : Z :=
  fold_left (fun acc c => acc * 10 + Z.of_N (c - 48))%Z s 0%Z.

Definition hex_value (c : N) : Z :=
  if is_ascii_digit c then Z.of_N (c - 48)
  else if N.leb 97 c then Z.of_N (c - 87) else Z.of_N (c - 55).

(** [int(s, 16)]; [None] for the empty string. *)
Definition hex_digits_value (s : str) : option Z :=
  match s with
  | [] => None
  | _ => Some (fold_left (fun acc c => acc * 16 + hex_value c)%Z s 0%Z)
  end.

(** [_BaseV4._parse_octet] *)
Definition parse_octet (octet_str : str) : option Z :=
  match octet_str with
  | [] => None
  | c0 :: _ =>
      if negb (forallb is_ascii_digit octet_str) then None
      else if Nat.ltb 3 (List.length octet_str) then None
      else if negb (str_eqb octet_str [48%N]) && N.eqb c0 48 then None
      else let octet_int := digits_value octet_str in
           if Z.ltb 255 octet_int then None else Some octet_int
  end.

Fixpoint octets_value (octets : list str) (acc : Z) : option Z :=
  match octets with
  | [] => Some acc
  | o :: rest =>
      match parse_octet o with
      | Some v => octets_value rest (acc * 256 + v)%Z
      | None => None
      end
  end.

(** [_BaseV4._ip_int_from_string]; [None] is [AddressValueError]. *)
Definition ipv4_int_from_string (ip_str : str) : option Z :=
  match ip_str with
  | [] => None
  | _ =>
      let octets := split N.eqb ip_str [DOT] in
      if negb (Nat.eqb (List.length octets) 4) then None
      else octets_value octets 0
  end.

(** [IPv4Address(s)] for a string [s]. *)
Definition ipv4_address (s : str) : option Z :=
  if contains N.eqb [SLASH] s then None else ipv4_int_from_string s.

(** ['%x' % v] for [0 <= v < 2^16]. *)
Definition hex_char (d : Z) : N :=
  if Z.ltb d 10 then (48 + Z.to_N d)%N else (87 + Z.to_N d)%N.

Fixpoint hex_go (fuel : nat) (v : Z) (acc : str) : str :=
  match fuel with
  | O => acc
  | S f =>
      let acc' := hex_char (v mod 16) :: acc in
      if Z.eqb (v / 16) 0 then acc' else hex_go f (v / 16) acc'
  end.

Definition hex_str (v : Z) : str := hex_go 4 v [].

(** [_BaseV6._parse_hextet] *)
Definition parse_hextet (hextet_str : str) : option Z :=
  if negb (forallb is_hex_digit hextet_str) then None
  else if Nat.ltb 4 (List.length hextet_str) then None
  else hex_digits_value hextet_str.

Fixpoint hextets_value (hextets : list str) (acc : Z) : option Z :=
  match hextets with
  | [] => Some acc
  | h :: rest =>
      match parse_hextet h with
      | Some v => hextets_value rest (Z.lor (Z.shiftl acc 16) v)
      | None => None
      end
  end.

(** The [for i in range(1, len(parts) - 1)] loop looking for ['::'];
    the outer [None] is the [AddressValueError] for a second ['::']. *)
Fixpoint find_skip (middle : list str) (i : nat) (skip_index : option nat)
  : option (option nat) :=
  match middle with
  | [] => Some skip_index
  | part :: rest =>
      match part with
      | [] => match skip_index with
              | Some _ => None
              | None => find_skip rest (S i) (Some i)
              end
      | _ => find_skip rest (S i) skip_index
      end
  end.

Definition is_empty (s : str) : bool := match s with [] => true | _ => false end.

(** [_BaseV6._ip_int_from_string]; [None] is [AddressValueError]. *)
Definition ipv6_int_from_string (ip_str : str) : option Z :=
  match ip_str with
  | [] => None
  | _ =>
  let parts := split N.eqb ip_str [COLON] in
  if Nat.ltb (List.length parts) 3 then None else
  let parts :=
    if contains N.eqb [DOT] (last parts [])
    then match ipv4_address (last parts []) with
         | Some ipv4_int =>
             Some (removelast parts
                   ++ [hex_str (Z.land (Z.shiftr ipv4_int 16) 65535);
                       hex_str (Z.land ipv4_int 65535)])
         | None => None
         end
    else Some parts in
  match parts with
  | None => None
  | Some parts =>
  let len := List.length parts in
  if Nat.ltb 9 len then None else
  match find_skip (firstn (len - 2) (skipn 1 parts)) 1 None with
  | None => None
  | Some skip_index =>
  let counts :=
    match skip_index with
    | Some si =>
        let parts_hi := si in
        let parts_lo := len - si - 1 in
        let hi := if is_empty (hd [] parts) then Some (parts_hi - 1, parts_hi - 1)
                  else Some (parts_hi, 0) in
        match hi with
        | Some (parts_hi, rest_hi) =>
            if negb (Nat.eqb rest_hi 0) then None else
            let lo := if is_empty (last parts []) then (parts_lo - 1, parts_lo - 1)
                      else (parts_lo, 0) in
            let (parts_lo, rest_lo) := lo in
            if negb (Nat.eqb rest_lo 0) then None else
            if Nat.ltb 8 (parts_hi + parts_lo + 1) then None
            else Some (parts_hi, parts_lo, 8 - (parts_hi + parts_lo))
        | None => None
        end
    | None =>
        if negb (Nat.eqb len 8) then None
        else if is_empty (hd [] parts) then None
        else if is_empty (last parts []) then None
        else Some (len, 0, 0)
    end in
  match counts with
  | None => None
  | Some (parts_hi, parts_lo, parts_skipped) =>
      match hextets_value (firstn parts_hi parts) 0 with
      | None => None
      | Some hi_int =>
          hextets_value (skipn (len - parts_lo) parts)
                        (Z.shiftl hi_int (16 * Z.of_nat parts_skipped))
      end
  end
  end
  end
  end.

(** [_BaseV6._split_scope_id] *)
Definition split_scope_id (ip_str : str) : option (str * option str) :=
  match split1 N.eqb ip_str [PERCENT] with
  | None => Some (ip_str, None)
  | Some (addr, scope_id) =>
      if is_empty scope_id || contains N.eqb [PERCENT] scope_id then None
      else Some (addr, Some scope_id)
  end.

(** [IPv6Address(s)] for a string [s]: the integer and the scope. *)
Definition ipv6_address (s : str) : option (Z * option str) :=
  if contains N.eqb [SLASH] s then None else
  match split_scope_id s with
  | None => None
  | Some (addr_str, scope_id) =>
      match ipv6_int_from_string addr_str with
      | Some v => Some (v, scope_id)
      | None => None
      end
  end.

Inductive ip_addr : Type :=
| IPv4Address (ip : Z)
| IPv6Address (ip : Z) (scope_id : option str).

(** [ipaddress.ip_address(s)]; [None] is the [ValueError] it raises. *)
Definition ip_address (s : str) : option ip_addr :=
  match ipv4_address s with
  | Some v => Some (IPv4Address v)
  | None =>
      match ipv6_address s with
      | Some (v, scope) => Some (IPv6Address v scope)
      | None => None
      end
  end.

Definition option_str_eqb (x y : option str) : bool :=
  match x, y with
  | None, None => true
  | Some a, Some b => str_eqb a b
  | _, _ => false
  end.

(** [a == b] on addresses: same version and integer, and for IPv6 the
    same scope. *)
Definition ip_addr_eqb (a c : ip_addr) : bool :=
  match a, c with
  | IPv4Address x, IPv4Address y => Z.eqb x y
  | IPv6Address x sx, IPv6Address y sy => Z.eqb x y && option_str_eqb sx sy
  | _, _ => false
  end.

Local Open Scope Z_scope.

(** [int.bit_length] of a non-negative integer. *)
Definition bit_length (x : Z) : Z := if Z.eqb x 0 then 0 else Z.log2 x + 1.

(** [_count_righthand_zero_bits(number, bits)] *)
Definition count_righthand_zero_bits (number bits : Z) : Z :=
  if Z.eqb number 0 then bits
  else Z.min bits (bit_length (Z.land (Z.lnot number) (number - 1))).

Definition all_ones (max_prefixlen : Z) : Z := Z.ones max_prefixlen.

(** [_ip_int_from_prefix] *)
Definition ip_int_from_prefix (max_prefixlen prefixlen : Z) : Z :=
  Z.lxor (all_ones max_prefixlen) (Z.shiftr (all_ones max_prefixlen) prefixlen).

(** [_prefix_from_ip_int]; [None] is its [ValueError]. *)
Definition prefix_from_ip_int (max_prefixlen ip_int : Z) : option Z :=
  let trailing_zeroes := count_righthand_zero_bits ip_int max_prefixlen in
  let prefixlen := max_prefixlen - trailing_zeroes in
  let leading_ones := Z.shiftr ip_int trailing_zeroes in
  if Z.eqb leading_ones (Z.ones prefixlen) then Some prefixlen else None.

(** [_prefix_from_prefix_string]; [None] is [NetmaskValueError]. *)
Definition prefix_from_prefix_string (max_prefixlen : Z) (prefixlen_str : str)
  : option Z :=
  if is_empty prefixlen_str || negb (forallb is_ascii_digit prefixlen_str) then None
  else let prefixlen := digits_value prefixlen_str in
       if Z.leb 0 prefixlen && Z.leb prefixlen max_prefixlen then Some prefixlen
       else None.

(** [IPv4Network._prefix_from_ip_string]: a dotted netmask or hostmask. *)
Definition prefix_from_ip_string4 (ip_str : str) : option Z :=
  match ipv4_int_from_string ip_str with
  | None => None
  | Some ip_int =>
      match prefix_from_ip_int 32 ip_int with
      | Some p => Some p
      | None => prefix_from_ip_int 32 (Z.lxor ip_int (all_ones 32))
      end
  end.

(** The mask argument of a network constructor: the default prefix length
    (an [int]) or the text after the ['/']. *)
Inductive mask_arg : Type := MaskInt (p : Z) | MaskStr (m : str).

(** [_make_netmask] of [IPv4Network] and of [IPv6Network]: the prefix
    length. *)
Definition make_netmask4 (arg : mask_arg) : option Z :=
  match arg with
  | MaskInt p => if Z.leb 0 p && Z.leb p 32 then Some p else None
  | MaskStr m =>
      match prefix_from_prefix_string 32 m with
      | Some p => Some p
      | None => prefix_from_ip_string4 m
      end
  end.

Definition make_netmask6 (arg : mask_arg) : option Z :=
  match arg with
  | MaskInt p => if Z.leb 0 p && Z.leb p 128 then Some p else None
  | MaskStr m => prefix_from_prefix_string 128 m
  end.

(** [_split_addr_prefix] of a string. *)
Definition split_addr_prefix (max_prefixlen : Z) (address : str)
  : option (str * mask_arg) :=
  match split N.eqb address [SLASH] with
  | [a] => Some (a, MaskInt max_prefixlen)
  | [a; m] => Some (a, MaskStr m)
  | _ => None
  end.

Record ip_network := {
  net_v6 : bool;            (** [IPv6Network] rather than [IPv4Network] *)
  network_address : Z;
  netmask : Z
}.

(** [IPv4Network(s, strict=False)] *)
Definition ipv4_network (s : str) : option ip_network :=
  match split_addr_prefix 32 s with
  | None => None
  | Some (addr, mask) =>
      match ipv4_address addr, make_netmask4 mask with
      | Some packed, Some prefixlen =>
          let nm := ip_int_from_prefix 32 prefixlen in
          Some {| net_v6 := false; network_address := Z.land packed nm; netmask := nm |}
      | _, _ => None
      end
  end.

(** [IPv6Network(s, strict=False)] *)
Definition ipv6_network (s : str) : option ip_network :=
  match split_addr_prefix 128 s with
  | None => None
  | Some (addr, mask) =>
      match ipv6_address addr, make_netmask6 mask with
      | Some (packed, _), Some prefixlen =>
          let nm := ip_int_from_prefix 128 prefixlen in
          Some {| net_v6 := true; network_address := Z.land packed nm; netmask := nm |}
      | _, _ => None
      end
  end.

(** [ipaddress.ip_network(s, strict=False)]; [None] is its [ValueError]. *)
Definition ip_network_of (s : str) : option ip_network :=
  match ipv4_network s with
  | Some n => Some n
  | None => ipv6_network s
  end.

(** [addr in network] ([_BaseNetwork.__contains__]). *)
Definition net_contains (net : ip_network) (a : ip_addr) : bool :=
  match a with
  | IPv4Address ip => negb (net_v6 net) && Z.eqb (Z.land ip (netmask net)) (network_address net)
  | IPv6Address ip _ => net_v6 net && Z.eqb (Z.land ip (netmask net)) (network_address net)
  end.

Local Close Scope Z_scope.

(** Python exceptions the handler can meet. *)
Inductive exn : Type :=
| ValueError | TypeError | AttributeError | IndexError
| UnicodeDecodeError | UnicodeEncodeError | OSError.

(** The [for ip in allowed_ips] loop of [restrict_access]: [inr b] is
    [return b] (with [b = false] when the loop ends), [inl e] an exception
    that leaves the method. *)
Fixpoint allowed_loop (client_ip : ip_addr) (allowed_ips : list str) : exn + bool :=
  match allowed_ips with
  | [] => inr false
  | ip :: rest =>
      let ip := py_strip ip in
      if contains N.eqb [SLASH] ip then
        (* try: ... except ValueError: pass *)
        match ip_network_of ip with
        | Some network =>
            if net_contains network client_ip then inr true
            else allowed_loop client_ip rest
        | None => allowed_loop client_ip rest
        end
      else
        match ip_address ip with
        | None => inl ValueError
        | Some a => if ip_addr_eqb client_ip a then inr true
                    else allowed_loop client_ip rest
        end
  end.

(** The decision of [restrict_access] for the configured [allowed_ip]
    ([None] when the option was not given) and the client host string
    [self.client_address[0]]; the 403 it sends on [False] is added by the
    handler below. *)
Definition restrict_access_result (allowed_ip : option str) (client_host : str)
  : exn + bool :=
  match allowed_ip with
  | None | Some [] => inr true
  | Some allowed =>
      match ip_address client_host with
      | None => inl ValueError
      | Some client_ip => allowed_loop client_ip (split N.eqb allowed [COMMA])
      end
  end.

(** Whether one allow-list entry admits the client, as the loop body
    decides it when it does not raise. *)
Definition entry_matches (client_ip : ip_addr) (ip : str) : bool :=
  let ip := py_strip ip in
  if contains N.eqb [SLASH] ip then
    match ip_network_of ip with
    | Some network => net_contains network client_ip
    | None => false
    end
  else
    match ip_address ip with
    | Some a => ip_addr_eqb client_ip a
    | None => false
    end.

(** ** Codecs and [int] *)

Local Open Scope N_scope.

(** A UTF-8 continuation byte. *)
Definition utf8_cont (x : N) : bool := N.leb 128 x && N.ltb x 192.

(** [bytes.decode()]: strict UTF-8 ([None] is [UnicodeDecodeError]);
    overlong forms, surrogates and code points above U+10FFFF are
    refused, as CPython refuses them. *)
Fixpoint utf8_decode_go (l : list N) : option str :=
  match l with
  | [] => Some []
  | b0 :: r =>
      if N.ltb b0 128 then option_map (cons b0) (utf8_decode_go r)
      else if N.leb 194 b0 && N.leb b0 223 then
        match r with
        | b1 :: r' =>
            if utf8_cont b1
            then option_map (cons ((b0 - 192) * 64 + (b1 - 128))) (utf8_decode_go r')
            else None
        | _ => None
        end
      else if N.leb 224 b0 && N.leb b0 239 then
        match r with
        | b1 :: b2 :: r' =>
            let lo := if N.eqb b0 224 then 160 else 128 in
            let hi := if N.eqb b0 237 then 159 else 191 in
            if N.leb lo b1 && N.leb b1 hi && utf8_cont b2
            then option_map (cons ((b0 - 224) * 4096 + (b1 - 128) * 64 + (b2 - 128)))
                   (utf8_decode_go r')
            else None
        | _ => None
        end
      else if N.leb 240 b0 && N.leb b0 244 then
        match r with
        | b1 :: b2 :: b3 :: r' =>
            let lo := if N.eqb b0 240 then 144 else 128 in
            let hi := if N.eqb b0 244 then 143 else 191 in
            if N.leb lo b1 && N.leb b1 hi && utf8_cont b2 && utf8_cont b3
            then option_map (cons ((b0 - 240) * 262144 + (b1 - 128) * 4096
                                   + (b2 - 128) * 64 + (b3 - 128)))
                   (utf8_decode_go r')
            else None
        | _ => None
        end
      else None
  end.

Definition utf8_decode (s : bytes) : option str := utf8_decode_go (map Byte.to_N s).

(** An octet value as a [Byte.byte]; every use below passes a value
    below 256. *)
Definition byte_of_N (n : N) : Byte.byte :=
  match Byte.of_N n with Some x => x | None => Byte.x00 end.

(** [str.encode()]: UTF-8, [None] for a surrogate code point
    ([UnicodeEncodeError]). *)
Fixpoint utf8_encode_go (s : str) : option (list N) :=
  match s with
  | [] => Some []
  | c :: s' =>
      let rest := utf8_encode_go s' in
      if N.ltb c 128 then option_map (cons c) rest
      else if N.ltb c 2048 then
        option_map (fun r => 192 + c / 64 :: 128 + c mod 64 :: r) rest
      else if N.leb 55296 c && N.leb c 57343 then None
      else if N.ltb c 65536 then
        option_map (fun r => 224 + c / 4096 :: 128 + (c / 64) mod 64
                             :: 128 + c mod 64 :: r) rest
      else if N.leb c 1114111 then
        option_map (fun r => 240 + c / 262144 :: 128 + (c / 4096) mod 64
                             :: 128 + (c / 64) mod 64 :: 128 + c mod 64 :: r) rest
      else None
  end.

Definition utf8_encode (s : str) : option bytes :=
  option_map (map byte_of_N) (utf8_encode_go s).

(** The code points [str.encode()] accepts: at most U+10FFFF and not a
    surrogate. *)
Definition utf8_scalar (c : N) : bool :=
  N.leb c 1114111 && negb (N.leb 55296 c && N.leb c 57343).

Definition PLUS : N := 43.
Definition MINUS : N := 45.

(** The digits of [int(s)] in base 10: digits with single underscores
    between them.  Header values are Latin-1 text, whose only decimal
    digits are the ASCII ones. *)
Fixpoint int_digits (s : str) (acc : Z) (prev_digit : bool) : option Z :=
  match s with
  | [] => if prev_digit then Some acc else None
  | c :: s' =>
      if is_ascii_digit c then
        int_digits s' (acc * 10 + Z.of_N (c - 48))%Z true
      else if N.eqb c UNDERSCORE && prev_digit then int_digits s' acc false
      else None
  end.

(** The default of [sys.get_int_max_str_digits()] (CPython 3.11). *)
Definition int_max_str_digits : nat := 4300.

(** [int(s)] for a [str]: [None] is [ValueError], raised also for more
    than [int_max_str_digits] digits. *)
Definition py_int (s : str) : option Z :=
  let r :=
    match py_strip s with
    | [] => None
    | c :: s' =>
        if N.eqb c MINUS then option_map Z.opp (int_digits s' 0 false)
        else if N.eqb c PLUS then int_digits s' 0 false
        else int_digits (c :: s') 0 false
    end in
  if Nat.ltb int_max_str_digits (List.length (filter is_ascii_digit (py_strip s)))
  then None else r.

Local Close Scope N_scope.

(** ** [re.search(r'filename="(.+)"', s).group(1)] *)

(** Index of the last [QUOTE] at a position [>= 1] of [line] ([i] is the
    index of the head of [line]). *)
Fixpoint last_quote (line : str) (i : nat) : option nat :=
  match line with
  | [] => None
  | c :: line' =>
      match last_quote line' (S i) with
      | Some j => Some j
      | None => if N.eqb c QUOTE && Nat.leb 1 i then Some i else None
      end
  end.

(** The characters [.] matches: all but a newline. *)
Fixpoint take_line (s : str) : str :=
  match s with
  | [] => []
  | c :: s' => if N.eqb c NEWLINE then [] else c :: take_line s'
  end.

Definition FILENAME_EQ : str := u "filename=" ++ [QUOTE].

(** The pattern at a fixed start: the literal, then the greedy [(.+)]
    backing off to the last [QUOTE] it can be followed by. *)
Definition match_at (s : str) : option str :=
  if startswith N.eqb s FILENAME_EQ then
    let line := take_line (skipn (List.length FILENAME_EQ) s) in
    match last_quote line 0 with
    | Some j => Some (firstn j line)
    | None => None
    end
  else None.

(** [re.search]: the leftmost start at which the pattern matches. *)
Fixpoint re_search_filename (s : str) : option str :=
  match match_at s with
  | Some g => Some g
  | None => match s with [] => None | _ :: s' => re_search_filename s' end
  end.

(** ** Headers *)

Definition ascii_lower (c : N) : N :=
  if N.leb 65 c && N.leb c 90 then (c + 32)%N else c.

(** [self.headers[name]]: the first header whose name matches without
    regard to case, [None] when there is none.  Header text is decoded as
    Latin-1, where case folding of an ASCII name only meets ASCII letters. *)
Fixpoint header_get (hs : list (str * str)) (name : str) : option str :=
  match hs with
  | [] => None
  | (k, v) :: hs' =>
      if str_eqb (map ascii_lower k) (map ascii_lower name) then Some v
      else header_get hs' name
  end.

(** ** The request handler *)

(** What the handler prints on the terminal. *)
Inductive log_entry : Type :=
| Saved (client_host file_path : str)
| Error (e : exn).

(** The part of the world the handler reads and changes: the existing
    paths ([os.path.exists]), the paths where creating or opening fails
    with [OSError], the files written (path and content, in order), the
    status codes whose sending completed, and the lines printed.  The
    last two fields say which output fails: [send_error c] is the
    exception raised while answering with status [c] (the socket writes
    of [end_headers] and of the page, [BrokenPipeError] or
    [ConnectionResetError] when the client has gone, or the server log
    line), and [print_error l] the exception raised by printing [l] on
    the terminal (a closed stream, or an encoding that cannot represent
    the text); [None] when the output succeeds. *)
Record world := mkWorld {
  paths : list str;
  fail_paths : list str;
  written : list (str * bytes);
  responses : list N;
  log : list log_entry;
  send_error : N -> option exn;
  print_error : log_entry -> option exn
}.

(** The result of running a statement: a value, a raised exception, or
    a [while] loop still running. *)
Inductive outcome (A : Type) : Type :=
| Ok (a : A)
| Exc (e : exn)
| Diverge.
Arguments Ok {A} a.
Arguments Exc {A} e.
Arguments Diverge {A}.

Definition M (A : Type) : Type := world -> outcome A * world.

Definition ret {A} (a : A) : M A := fun w => (Ok a, w).

Definition bind {A B} (m : M A) (k : A -> M B) : M B :=
  fun w =>
    match m w with
    | (Ok a, w') => k a w'
    | (Exc e, w') => (Exc e, w')
    | (Diverge, w') => (Diverge, w')
    end.

Notation "x <- m ;; k" := (bind m (fun x => k))
  (at level 61, m at next level, right associativity).
Notation "m ;;; k" := (bind m (fun _ => k))
  (at level 61, right associativity).

Definition raise {A} (e : exn) : M A := fun w => (Exc e, w).

(** An [exn + A] result lifted into the handler. *)
Definition lift {A} (r : exn + A) : M A :=
  match r with inl e => raise e | inr a => ret a end.

(** [try: m except Exception as e: h e]; every [exn] is an [Exception].
    The effects of [m] before the exception stay. *)
Definition catch {A} (m : M A) (h : exn -> M A) : M A :=
  fun w =>
    match m w with
    | (Exc e, w') => h e w'
    | r => r
    end.

(** [self.send_response(code)], [self.end_headers()] and the page
    written after them. *)
Definition send_response (code : N) : M unit :=
  fun w =>
    match send_error w code with
    | Some e => (Exc e, w)
    | None => (Ok tt, mkWorld (paths w) (fail_paths w) (written w)
                              (responses w ++ [code]) (log w)
                              (send_error w) (print_error w))
    end.

(** [print(...)] *)
Definition print (e : log_entry) : M unit :=
  fun w =>
    match print_error w e with
    | Some x => (Exc x, w)
    | None => (Ok tt, mkWorld (paths w) (fail_paths w) (written w)
                              (responses w) (log w ++ [e])
                              (send_error w) (print_error w))
    end.

(** [os.makedirs(d, exist_ok=True)] *)
Definition makedirs (d : str) : M unit :=
  fun w =>
    if path_exists (fail_paths w) d then (Exc OSError, w)
    else if path_exists (paths w) d then (Ok tt, w)
    else (Ok tt, mkWorld (d :: paths w) (fail_paths w) (written w)
                         (responses w) (log w) (send_error w) (print_error w)).

(** [with open(p, 'wb') as f: f.write(data)] *)
Definition write_file (p : str) (data : bytes) : M unit :=
  fun w =>
    if path_exists (fail_paths w) p then (Exc OSError, w)
    else (Ok tt, mkWorld (if path_exists (paths w) p then paths w else p :: paths w)
                         (fail_paths w) (written w ++ [(p, data)])
                         (responses w) (log w) (send_error w) (print_error w)).

(** [prevent_clobber] on the current file system. *)
Definition prevent_clobber_m (upload_folder filename : str) : M str :=
  fun w =>
    match prevent_clobber (paths w) upload_folder filename with
    | Some p => (Ok p, w)
    | None => (Diverge, w)
    end.

(** The handler's configuration ([upload_folder] is always set by
    [main], to the working directory by default). *)
Record config := mkConfig {
  upload_folder : str;
  allowed_ip : option str;
  organize_uploads : bool
}.

(** A request: [self.path], [self.client_address[0]], the headers in
    order, and the bytes the client sends after them on [self.rfile]. *)
Record request := mkRequest {
  req_path : str;
  client_host : str;
  req_headers : list (str * str);
  rfile : bytes
}.

(** [restrict_access] *)
Definition restrict_access (cfg : config) (req : request) : M bool :=
  match restrict_access_result (allowed_ip cfg) (client_host req) with
  | inl e => raise e
  | inr true => ret true
  | inr false => send_response 403 ;;; ret false
  end.

(** [int(self.headers['Content-Length'])]: [int(None)] is a [TypeError]. *)
Definition content_length (req : request) : exn + Z :=
  match header_get (req_headers req) (u "Content-Length") with
  | None => inl TypeError
  | Some s => match py_int s with None => inl ValueError | Some n => inr n end
  end.

(** [self.rfile] is an [io.BufferedReader], whose [read(n)] raises
    [ValueError] for [n < -1]. *)
Definition read_length_ok (n : Z) : exn + unit :=
  if Z.ltb n (-1) then inl ValueError else inr tt.

(** [self.rfile.read(n)] for [n >= -1]: everything for [-1], else at
    most [n] bytes. *)
Definition rfile_read (body : bytes) (n : Z) : bytes :=
  if Z.ltb n 0 then body else firstn (Z.to_nat n) body.

Definition EQUALS : N := 61.

(** [content_type.split('; ')[1].split('=')[1].encode()] *)
Definition boundary_of (content_type : str) : exn + bytes :=
  match index (split N.eqb content_type (u "; ")) 1 with
  | None => inl IndexError
  | Some param =>
      match index (split N.eqb param [EQUALS]) 1 with
      | None => inl IndexError
      | Some boundary =>
          match utf8_encode boundary with
          | None => inl UnicodeEncodeError
          | Some bnd => inr bnd
          end
      end
  end.

Definition DASHDASH : bytes := b "--".
Definition MARKER : bytes := b "filename=" ++ [Byte.x22].
Definition CRLFCRLF : bytes := [Byte.x0d; Byte.x0a; Byte.x0d; Byte.x0a].

(** The statements of the loop body up to the filename:
    [headers, data = part.split(b'\r\n\r\n', 1)], [headers.decode()] and
    the [re.search] with its [.group(1)] ([None] has no [group]). *)
Definition parse_part (part : bytes) : exn + (str * bytes) :=
  match split1 Byte.eqb part CRLFCRLF with
  | None => inl ValueError
  | Some (headers, data) =>
      match utf8_decode headers with
      | None => inl UnicodeDecodeError
      | Some content_disposition =>
          match re_search_filename content_disposition with
          | None => inl AttributeError
          | Some filename => inr (filename, data)
          end
      end
  end.

(** The multipart extraction the handler performs, as a function of the
    content type and the bytes read: the raw filename and the content of
    the first part holding the marker, [None] when no part holds it. *)
Definition extract (content_type : str) (form_data : bytes)
  : exn + option (str * bytes) :=
  match boundary_of content_type with
  | inl e => inl e
  | inr bnd =>
      match find (contains Byte.eqb MARKER) (split Byte.eqb form_data (DASHDASH ++ bnd)) with
      | None => inr None
      | Some part =>
          match parse_part part with
          | inl e => inl e
          | inr r => inr (Some r)
          end
      end
  end.

Section Handler.
Variable isalnum : N -> bool.

(** The body of [if MARKER in part:], which ends in [return]. *)
Definition save_part (cfg : config) (req : request) (part : bytes) : M unit :=
  r <- lift (parse_part part) ;;
  let '(raw_filename, data) := r in
  let filename := sanitize_filename isalnum raw_filename in
  (* [self.client_address] is a pair, always true *)
  folder <- (if organize_uploads cfg then
               let f := os_path_join (upload_folder cfg) (client_host req) in
               makedirs f ;;; ret f
             else ret (upload_folder cfg)) ;;
  file_path <- prevent_clobber_m folder filename ;;
  write_file file_path data ;;;
  send_response 200 ;;;
  print (Saved (client_host req) file_path).

(** [for part in parts: ...]: [true] when the loop body returned. *)
Fixpoint handle_parts (cfg : config) (req : request) (parts : list bytes) : M bool :=
  match parts with
  | [] => ret false
  | part :: rest =>
      if contains Byte.eqb MARKER part then save_part cfg req part ;;; ret true
      else handle_parts cfg req rest
  end.

(** The [try] block. *)
Definition upload (cfg : config) (req : request) (content_type : str) : M bool :=
  content_length <- lift (content_length req) ;;
  lift (read_length_ok content_length) ;;;
  let form_data := rfile_read (rfile req) content_length in
  bnd <- lift (boundary_of content_type) ;;
  let parts := split Byte.eqb form_data (DASHDASH ++ bnd) in
  handle_parts cfg req parts.

(** [do_POST]; [self.headers['Content-Type']] is [None] when the header
    is missing, and [None.startswith] raises [AttributeError]. *)
Definition do_POST (cfg : config) (req : request) : M unit :=
  if str_eqb (req_path req) [SLASH] then
    allowed <- restrict_access cfg req ;;
    if negb allowed then ret tt else
    content_type <- (match header_get (req_headers req) (u "Content-Type") with
                     | None => raise AttributeError
                     | Some ct => ret ct
                     end) ;;
    returned <- (if startswith N.eqb content_type (u "multipart/form-data") then
                   catch (upload cfg req content_type)
                         (fun e => print (Error e) ;;; ret false)
                 else ret false) ;;
    if returned then ret tt else send_response 400
  else ret tt.
End Handler.

(** [do_GET]; the headers and the upload page it writes to [wfile] are
    not part of the world. *)
Definition do_GET (cfg : config) (req : request) : M unit :=
  if str_eqb (req_path req) [SLASH] then
    allowed <- restrict_access cfg req ;;
    if negb allowed then ret tt else send_response 200
  else ret tt.

(** ** What a statement of the handler writes *)

(** [m] writes no file. *)
Definition keeps_written {A} (m : M A) : Prop :=
  forall w, written (snd (m w)) = written w.

(** [m] writes at most one file, and a file it writes satisfies [Q]. *)
Definition writes_at_most_one {A} (Q : str * bytes -> Prop) (m : M A) : Prop :=
  forall w, written (snd (m w)) = written w \/
            exists x, Q x /\ written (snd (m w)) = written w ++ [x].

(** [part] is the first of [parts] holding the marker. *)
Definition first_marker_part (parts : list bytes) (part : bytes) : Prop :=
  exists pre post, parts = pre ++ part :: post /\
    Forall (fun q => contains Byte.eqb MARKER q = false) pre /\
    contains Byte.eqb MARKER part = true.

(** ** A request body of the specification's example: one part, with
    boundary [XYZ], file name [report.txt] and content [hello]. *)
Definition CRLF : bytes := [Byte.x0d; Byte.x0a].
Definition QUOTE_BYTE : bytes := [Byte.x22].
Definition report_content_type : str := u "multipart/form-data; boundary=XYZ".
Definition report_body : bytes :=
  b "--XYZ" ++ CRLF ++
  b "Content-Disposition: form-data; name=" ++ QUOTE_BYTE ++ b "file" ++ QUOTE_BYTE ++
  b "; filename=" ++ QUOTE_BYTE ++ b "report.txt" ++ QUOTE_BYTE ++ CRLF ++
  CRLF ++ b "hello" ++ CRLF ++
  b "--XYZ--" ++ CRLF.

(** ** An authorized POST to [/] that has no Content-Type header *)
Definition default_config : config := mkConfig (u "/srv/uploads") None false.
Definition empty_world : world :=
  mkWorld [] [] [] [] [] (fun _ => None) (fun _ => None).
Definition missing_type_request : request :=
  mkRequest [SLASH] (u "10.0.0.1") [(u "Content-Length", u "5")] (b "hello").

(** ** An authorized POST to [/] of the example body *)
Definition report_request : request :=
  mkRequest [SLASH] (u "10.0.0.1")
    [(u "Content-Type", report_content_type); (u "Content-Length", u "1000")]
    report_body.

(** ** A POST to [/] whose content type is not multipart *)
Definition text_request : request :=
  mkRequest [SLASH] (u "10.0.0.1")
    [(u "Content-Type", u "text/plain"); (u "Content-Length", u "5")] (b "hello").

(** [e] is the exception some status or printed line raises in [w]. *)
Definition io_error (w : world) (e : exn) : Prop :=
  (exists c, send_error w c = Some e) \/ (exists l, print_error w l = Some e).

(** [m] raises nothing but the failures of its output. *)
Definition raises_only_io {A} (m : M A) : Prop :=
  forall w e, fst (m w) = Exc e -> io_error w e.

(** [m] leaves the failures of the output as they are. *)
Definition keeps_io {A} (m : M A) : Prop :=
  forall w, send_error (snd (m w)) = send_error w /\ print_error (snd (m w)) = print_error w.


(** * Proofs *)

(** ** Sequence lemmas *)

Section SeqFacts.
Context {A : Type} (eqb : A -> A -> bool)
        (eqb_spec : forall x y, eqb x y = true <-> x = y).

Lemma seq_eqb_spec (x y : list A) : seq_eqb eqb x y = true <-> x = y.
Proof.
  revert y; induction x as [|a x IH]; intros [|c y]; simpl;
    try (split; congruence).
  rewrite andb_true_iff, eqb_spec, IH. split; [intros [-> ->]; auto|].
  intros H; injection H; auto.
Qed.

Lemma endswith_single (cur : list A) (c d : A) :
  endswith eqb (cur ++ [c]) [d] = eqb d c.
Proof.
  unfold endswith. rewrite rev_app_distr. simpl.
  destruct (rev cur), (eqb d c); reflexivity.
Qed.

Lemma firstn_snoc (cur : list A) (c : A) :
  firstn (List.length (cur ++ [c]) - 1) (cur ++ [c]) = cur.
Proof.
  rewrite length_app; simpl. rewrite Nat.add_sub.
  rewrite firstn_app, Nat.sub_diag, firstn_all. simpl. apply app_nil_r.
Qed.

(** Splitting on a one-element separator that does not occur. *)
Lemma split_go_absent (d : A) (s cur : list A) :
  (forall x, In x s -> eqb d x = false) ->
  split_go eqb [d] s cur = [cur ++ s].
Proof.
  revert cur; induction s as [|c s IH]; intros cur Hs; simpl.
  - now rewrite app_nil_r.
  - rewrite endswith_single, (Hs c (or_introl eq_refl)).
    rewrite IH by (intros; apply Hs; now right).
    now rewrite <- app_assoc.
Qed.

Lemma in_firstn (n : nat) (l : list A) (c : A) : In c (firstn n l) -> In c l.
Proof.
  intros H. rewrite <- (firstn_skipn n l). apply in_or_app. now left.
Qed.

(** Every piece of a split is made of characters of the input. *)
Lemma split_go_chars (sep s cur x : list A) (c : A) :
  In x (split_go eqb sep s cur) -> In c x -> In c cur \/ In c s.
Proof.
  revert cur; induction s as [|a s IH]; intros cur Hx Hc; simpl in Hx.
  - destruct Hx as [<-|[]]; now left.
  - destruct (endswith eqb (cur ++ [a]) sep).
    + destruct Hx as [<-|Hx].
      * apply in_firstn in Hc. apply in_app_or in Hc.
        destruct Hc as [Hc|[<-|[]]]; [now left|right; now left].
      * destruct (IH [] Hx Hc) as [[]|H]; right; now right.
    + destruct (IH _ Hx Hc) as [H|H].
      * apply in_app_or in H. destruct H as [H|[<-|[]]];
          [now left|right; now left].
      * right; now right.
Qed.

(** The first piece of a split on a one-element separator starts with
    the piece read so far. *)
Lemma split_go_first (d : A) (s cur : list A) :
  cur <> [] ->
  exists x rest, split_go eqb [d] s cur = x :: rest /\ x <> [].
Proof.
  revert cur; induction s as [|a s IH]; intros cur Hcur; simpl.
  - eauto.
  - rewrite endswith_single. destruct (eqb d a).
    + rewrite firstn_snoc. eauto.
    + apply IH. destruct cur; discriminate.
Qed.
End SeqFacts.

Lemma str_eqb_spec (x y : str) : str_eqb x y = true <-> x = y.
Proof. apply seq_eqb_spec, N.eqb_eq. Qed.

Lemma str_eqb_false (x y : str) : x <> y -> str_eqb x y = false.
Proof. intros H. destruct (str_eqb x y) eqn:E; auto. now apply str_eqb_spec in E. Qed.

Lemma join_with_chars (sep : str) (xs : list str) (c : N) :
  In c (join_with sep xs) -> In c sep \/ exists x, In x xs /\ In c x.
Proof.
  induction xs as [|x xs IH]; simpl; [intros []|].
  destruct xs as [|y ys].
  - intros H. right. exists x. auto.
  - intros H. apply in_app_or in H. destruct H as [H|H]; [right; eauto|].
    apply in_app_or in H. destruct H as [H|H]; [now left|].
    destruct (IH H) as [H'|[z [Hz Hc]]]; [now left|right; eauto].
Qed.

Lemma join_with_nonempty (sep : str) (xs : list str) (x : str) :
  In x xs -> x <> [] -> join_with sep xs <> [].
Proof.
  induction xs as [|y xs IH]; simpl; [intros []|].
  intros Hx Hne E. destruct xs as [|z zs].
  - destruct Hx as [<-|[]]. contradiction.
  - apply app_eq_nil in E. destruct E as [Ey E].
    apply app_eq_nil in E. destruct E as [_ E].
    destruct Hx as [<-|Hx]; [contradiction|]. exact (IH Hx Hne E).
Qed.

Lemma normpath_comps_in (k : nat) (comps acc : list str) (x : str) :
  In x (normpath_comps k comps acc) -> In x comps \/ In x acc.
Proof.
  revert acc; induction comps as [|comp rest IH]; intros acc; simpl; [auto|].
  destruct (str_eqb comp [] || str_eqb comp [DOT]).
  - intros H. destruct (IH _ H); auto.
  - destruct (_ || _ || _); intros H; destruct (IH _ H) as [H'|H']; auto.
    + destruct H' as [<-|H']; auto.
    + destruct acc as [|a acc]; [destruct H'|]. right; now right.
Qed.

(** Without a [..] component nothing is popped. *)
Lemma normpath_comps_push (k : nat) (comps acc : list str) :
  (forall x, In x comps -> x <> [DOT; DOT]) ->
  exists l, normpath_comps k comps acc = l ++ acc.
Proof.
  revert acc; induction comps as [|comp rest IH]; intros acc Hc; simpl.
  - now exists [].
  - assert (Hr : forall x, In x rest -> x <> [DOT; DOT]) by (intros; apply Hc; now right).
    destruct (str_eqb comp [] || str_eqb comp [DOT]); [now apply IH|].
    rewrite (str_eqb_false comp [DOT; DOT]) by (apply Hc; now left). simpl.
    destruct (IH (comp :: acc) Hr) as [l Hl]. exists (l ++ [comp]).
    rewrite Hl, <- app_assoc. reflexivity.
Qed.

Lemma normpath_body_chars (k : nat) (s : str) (c : N) :
  In c (repeat SLASH k ++ join_with [SLASH]
          (rev (normpath_comps k (split N.eqb s [SLASH]) []))) ->
  In c s \/ c = SLASH.
Proof.
  intros H. apply in_app_or in H. destruct H as [H|H].
  - apply repeat_spec in H. now right.
  - apply join_with_chars in H. destruct H as [[<-|[]]|[x [Hx Hc]]]; [now right|].
    apply in_rev, normpath_comps_in in Hx. destruct Hx as [Hx|[]].
    destruct (split_go_chars N.eqb [SLASH] s [] x c Hx Hc) as [[]|H]. now left.
Qed.

Lemma normpath_chars (s : str) (c : N) :
  In c (normpath s) -> In c s \/ c = SLASH \/ normpath s = [DOT].
Proof.
  unfold normpath. destruct s as [|a t]; [auto|].
  set (k := if startswith _ _ _ then _ else _).
  destruct (repeat SLASH k ++ _) as [|d p] eqn:E; [auto|].
  rewrite <- E. intros H. apply normpath_body_chars in H. tauto.
Qed.

Lemma normpath_nonempty (s : str) : normpath s <> [].
Proof.
  unfold normpath. destruct s; [discriminate|].
  destruct (repeat SLASH _ ++ _); discriminate.
Qed.

Lemma normpath_comps_one (x : str) :
  x <> [] -> x <> [DOT] -> normpath_comps 0 [x] [] = [x].
Proof.
  intros H1 H2. cbn [normpath_comps].
  rewrite (str_eqb_false x []), (str_eqb_false x [DOT]) by assumption.
  destruct (str_eqb x [DOT; DOT]); reflexivity.
Qed.

(** A non-empty name without [/] is its own normal form. *)
Lemma normpath_single (y : str) :
  y <> [] -> ~ In SLASH y -> normpath y = y.
Proof.
  intros Hne Hs. destruct y as [|a t]; [congruence|].
  assert (Hk : startswith N.eqb (a :: t) [SLASH] = false).
  { cbn [startswith]. destruct (N.eqb_spec SLASH a) as [<-|]; [|reflexivity].
    exfalso; apply Hs; now left. }
  assert (Hsp : split N.eqb (a :: t) [SLASH] = [a :: t]).
  { apply (split_go_absent N.eqb SLASH (a :: t) []).
    intros x Hx. apply N.eqb_neq. intros <-. contradiction. }
  cbv beta iota zeta delta [normpath]. rewrite Hk, Hsp.
  destruct (list_eq_dec N.eq_dec (a :: t) [DOT]) as [E|E].
  - rewrite E. reflexivity.
  - rewrite normpath_comps_one by assumption. reflexivity.
Qed.

Lemma normpath_comps_keep_in (k : nat) (comps acc : list str) (x : str) :
  (forall y, In y comps -> y <> [DOT; DOT]) ->
  In x comps -> x <> [] -> x <> [DOT] ->
  In x (normpath_comps k comps acc).
Proof.
  revert acc; induction comps as [|comp rest IH]; intros acc Hc Hx H1 H2;
    [destruct Hx|].
  assert (Hr : forall y, In y rest -> y <> [DOT; DOT]) by (intros; apply Hc; now right).
  destruct Hx as [->|Hx].
  - cbn [normpath_comps].
    rewrite (str_eqb_false x []), (str_eqb_false x [DOT]),
            (str_eqb_false x [DOT; DOT]) by auto using in_eq. simpl.
    destruct (normpath_comps_push k rest (x :: acc) Hr) as [l ->].
    apply in_or_app. right. now left.
  - cbn [normpath_comps].
    destruct (str_eqb comp [] || str_eqb comp [DOT]); [now apply IH|].
    rewrite (str_eqb_false comp [DOT; DOT]) by (apply Hc; now left).
    simpl. now apply IH.
Qed.

(** A non-empty path without [.] normalises to a non-empty path made of
    its own characters and [/]. *)
Lemma normpath_no_dot (s : str) :
  s <> [] -> ~ In DOT s -> ~ In DOT (normpath s).
Proof.
  intros Hne Hd. destruct s as [|a t]; [congruence|].
  cbv beta iota zeta delta [normpath].
  set (k := if startswith N.eqb (a :: t) [SLASH] then _ else _).
  assert (Hbody : repeat SLASH k ++ join_with [SLASH]
                    (rev (normpath_comps k (split N.eqb (a :: t) [SLASH]) [])) <> []).
  { destruct (startswith N.eqb (a :: t) [SLASH]) eqn:Hst.
    - subst k. destruct (_ && _); discriminate.
    - subst k. simpl repeat. rewrite app_nil_l.
      assert (Ha : N.eqb SLASH a = false).
      { cbn [startswith] in Hst. destruct (N.eqb SLASH a); [|reflexivity].
        destruct t; discriminate. }
      assert (Hsp : split N.eqb (a :: t) [SLASH] = split_go N.eqb [SLASH] t [a]).
      { unfold split. cbn [split_go]. rewrite (endswith_single N.eqb [] a SLASH), Ha.
        reflexivity. }
      rewrite Hsp.
      destruct (split_go_first N.eqb SLASH t [a]) as [x [rest [Ex Hx]]];
        [discriminate|].
      assert (Hcomps : forall y c, In y (split_go N.eqb [SLASH] t [a]) -> In c y ->
                                   In c (a :: t)).
      { intros y c Hy Hc. destruct (split_go_chars N.eqb [SLASH] t [a] y c Hy Hc)
          as [[<-|[]]|H]; [now left|now right]. }
      apply (join_with_nonempty _ _ x); [|assumption].
      apply in_rev. rewrite rev_involutive. apply normpath_comps_keep_in.
      + intros y Hy E. subst y. apply Hd. apply (Hcomps [DOT; DOT]); auto. now left.
      + rewrite Ex. now left.
      + assumption.
      + intros E. subst x. apply Hd. apply (Hcomps [DOT]); [rewrite Ex; now left|now left]. }
  destruct (repeat SLASH k ++ _) as [|d p] eqn:E; [congruence|].
  rewrite <- E. intros H. apply normpath_body_chars in H.
  destruct H as [H|H]; [contradiction|discriminate].
Qed.

(** ** [sanitize_filename] *)

Section SanitizeFacts.
Variable isalnum : N -> bool.
(** On ASCII, Unicode's alphanumerics are the letters and the digits. *)
Hypothesis isalnum_ascii : forall c, (c < 128)%N -> isalnum c = ascii_isalnum c.

Lemma keep_slash : keep_char isalnum SLASH = false.
Proof.
  unfold keep_char, is_word. rewrite isalnum_ascii by (unfold SLASH; lia).
  reflexivity.
Qed.

Lemma sub_char_keep (c : N) : keep_char isalnum (sub_char isalnum c) = true.
Proof.
  unfold sub_char. destruct (keep_char isalnum c) eqn:E; [exact E|].
  unfold keep_char, is_word. now rewrite N.eqb_refl, !orb_true_r.
Qed.

Lemma sub_char_same (c : N) : keep_char isalnum c = true -> sub_char isalnum c = c.
Proof. unfold sub_char. now intros ->. Qed.

Lemma sub_char_idem (c : N) :
  sub_char isalnum (sub_char isalnum c) = sub_char isalnum c.
Proof. apply sub_char_same, sub_char_keep. Qed.

Lemma sub_char_not_slash (c : N) : sub_char isalnum c <> SLASH.
Proof using isalnum_ascii.
  unfold sub_char. destruct (keep_char isalnum c) eqn:E.
  - intros ->. rewrite keep_slash in E. discriminate.
  - unfold UNDERSCORE, SLASH. discriminate.
Qed.

Lemma sub_char_dot (c : N) : sub_char isalnum c = DOT -> c = DOT.
Proof.
  unfold sub_char. destruct (keep_char isalnum c); [auto|].
  unfold UNDERSCORE, DOT. discriminate.
Qed.

Lemma map_sub_char_dots (z w : str) :
  Forall (fun c => c = DOT) w -> map (sub_char isalnum) z = w -> z = w.
Proof.
  revert w; induction z as [|c z IH]; intros w Hw E; simpl in E; [auto|].
  destruct w as [|d w]; [discriminate|]. injection E as E1 E2.
  apply Forall_cons_iff in Hw. destruct Hw as [Hd Hw].
  assert (Hc : c = DOT) by (apply sub_char_dot; congruence).
  f_equal; [congruence|]. now apply IH.
Qed.

Lemma keep_dot : keep_char isalnum DOT = true.
Proof. unfold keep_char. now rewrite N.eqb_refl, orb_true_r. Qed.

Lemma sanitize_no_slash (s : str) : ~ In SLASH (sanitize_filename isalnum s).
Proof using isalnum_ascii.
  unfold sanitize_filename. intros H. apply in_map_iff in H.
  destruct H as [c [Hc _]]. exact (sub_char_not_slash c Hc).
Qed.

(** C10: the sanitised name is never empty (the empty name normalises
    to [.]). *)
Theorem sanitize_nonempty (s : str) : sanitize_filename isalnum s <> [].
Proof.
  unfold sanitize_filename. intros E. apply map_eq_nil in E.
  exact (normpath_nonempty s E).
Qed.

(** C1 (as amended): the sanitised name contains no [/], so it is a
    single path component; it is the parent-directory component [..]
    exactly when the input normalises to [..] (for instance [../]). *)
Theorem sanitize_one_component (s : str) :
  ~ In SLASH (sanitize_filename isalnum s) /\
  (sanitize_filename isalnum s = [DOT; DOT] <-> normpath s = [DOT; DOT]).
Proof using isalnum_ascii.
  split; [apply sanitize_no_slash|]. unfold sanitize_filename. split.
  - apply map_sub_char_dots. repeat constructor.
  - intros ->. simpl. now rewrite sub_char_same by apply keep_dot.
Qed.

(** C8: [sanitize_filename] is idempotent. *)
Theorem sanitize_idempotent (s : str) :
  sanitize_filename isalnum (sanitize_filename isalnum s)
  = sanitize_filename isalnum s.
Proof using isalnum_ascii.
  unfold sanitize_filename at 1.
  rewrite normpath_single by (apply sanitize_nonempty || apply sanitize_no_slash).
  unfold sanitize_filename. rewrite map_map. apply map_ext. apply sub_char_idem.
Qed.

(** C9: [sanitize_filename] is total: every input, the empty one
    included, yields a non-empty name of whitelisted characters; the
    empty name yields [.], and a name made only of characters outside
    the whitelist yields only underscores. *)
Theorem sanitize_total (s : str) :
  exists out, sanitize_filename isalnum s = out /\ out <> [] /\
    Forall (fun c => keep_char isalnum c = true) out /\
    (s = [] -> out = [DOT]) /\
    (s <> [] -> Forall (fun c => keep_char isalnum c = false) s ->
     Forall (fun c => c = UNDERSCORE) out).
Proof using isalnum_ascii.
  exists (sanitize_filename isalnum s). split; [reflexivity|].
  split; [apply sanitize_nonempty|]. split.
  { unfold sanitize_filename. apply Forall_map, Forall_forall.
    intros c _. apply sub_char_keep. }
  split.
  { intros ->. unfold sanitize_filename. simpl.
    now rewrite sub_char_same by apply keep_dot. }
  intros Hne Hall. unfold sanitize_filename. apply Forall_map, Forall_forall.
  intros c Hc. rewrite Forall_forall in Hall.
  assert (Hd : ~ In DOT s).
  { intros H. specialize (Hall _ H). now rewrite keep_dot in Hall. }
  unfold sub_char.
  destruct (normpath_chars s c Hc) as [H|[->|H]].
  - now rewrite (Hall c H).
  - now rewrite keep_slash.
  - exfalso. apply (normpath_no_dot s Hne Hd). rewrite H. now left.
Qed.
End SanitizeFacts.

(** ** [prevent_clobber] *)

Lemma path_exists_false (files : list str) (p : str) :
  path_exists files p = false <-> ~ In p files.
Proof.
  unfold path_exists. split.
  - intros H Hin. assert (existsb (str_eqb p) files = true) by
      (apply existsb_exists; exists p; split; [exact Hin|now apply str_eqb_spec]).
    congruence.
  - intros H. destruct (existsb (str_eqb p) files) eqn:E; [|reflexivity].
    apply existsb_exists in E. destruct E as [q [Hq E]].
    apply str_eqb_spec in E. subst. contradiction.
Qed.

Lemma uint_digits_inj (d1 d2 : Decimal.uint) :
  uint_digits d1 = uint_digits d2 -> d1 = d2.
Proof.
  revert d2; induction d1; intros [] E; simpl in E;
    try discriminate; try reflexivity;
    injection E as E; f_equal; now apply IHd1.
Qed.

Lemma str_of_nat_inj (i j : nat) : str_of_nat i = str_of_nat j -> i = j.
Proof.
  unfold str_of_nat. intros E. apply uint_digits_inj in E.
  rewrite <- (DecimalNat.Unsigned.of_to i), <- (DecimalNat.Unsigned.of_to j), E.
  reflexivity.
Qed.

Lemma rfind_go_ge (l : str) (c : N) (i best : Z) :
  (0 <= i)%Z -> (-1 <= best)%Z -> (-1 <= rfind_go l c i best)%Z.
Proof.
  revert i best; induction l as [|x l IH]; intros i best Hi Hb; simpl; [lia|].
  apply IH; [lia|]. destruct (N.eqb x c); lia.
Qed.

Lemma firstn_nil_inv {A} (n : nat) (l : list A) :
  firstn n l = [] -> n = 0 \/ l = [].
Proof. destruct n, l; simpl; auto; discriminate. Qed.

(** [splitext] cuts the name in two, and the stem is empty only for the
    empty name. *)
Lemma splitext_app (p : str) :
  p = fst (splitext p) ++ snd (splitext p) /\ (fst (splitext p) = [] -> p = []).
Proof.
  unfold splitext.
  assert (Hs : (-1 <= rfind p SLASH)%Z) by (apply rfind_go_ge; lia).
  destruct (Z.ltb_spec (rfind p SLASH) (rfind p DOT)) as [Hlt|]; simpl;
    [|split; [now rewrite app_nil_r|auto]].
  destruct (existsb _ _) eqn:Hex; simpl; [|split; [now rewrite app_nil_r|auto]].
  split; [symmetry; apply firstn_skipn|].
  intros E. apply firstn_nil_inv in E. destruct E as [E|E]; [|exact E].
  exfalso. apply existsb_exists in Hex. destruct Hex as [c [Hc _]].
  assert (Hlen : Z.to_nat (rfind p DOT - (rfind p SLASH + 1)) <> 0).
  { intros H0. rewrite H0 in Hc. destruct Hc. }
  lia.
Qed.

Lemma startswith_slash_app (x y z : str) :
  x <> [] -> startswith N.eqb (x ++ y) [SLASH] = startswith N.eqb (x ++ z) [SLASH].
Proof. destruct x; [congruence|]. intros _. reflexivity. Qed.

Lemma os_path_join_inj (dir x y : str) :
  startswith N.eqb x [SLASH] = startswith N.eqb y [SLASH] ->
  os_path_join dir x = os_path_join dir y -> x = y.
Proof.
  unfold os_path_join. intros Hs. rewrite Hs.
  destruct (startswith N.eqb y [SLASH]); [auto|].
  destruct (_ || _); intros E; apply app_inv_head in E; [exact E|now injection E].
Qed.

Lemma clobber_candidate_inj (dir name : str) (i j : nat) :
  clobber_candidate dir name i = clobber_candidate dir name j -> i = j.
Proof.
  destruct (splitext_app name) as [Hn Hb].
  set (base := fst (splitext name)) in *. set (ext := snd (splitext name)) in *.
  assert (Hst : forall k, startswith N.eqb name [SLASH] =
    startswith N.eqb (base ++ [UNDERSCORE] ++ str_of_nat k ++ ext) [SLASH]).
  { intros k. destruct base as [|a bs] eqn:Eb.
    - rewrite (Hb eq_refl). reflexivity.
    - rewrite Hn at 1. apply startswith_slash_app. discriminate. }
  assert (Hlen : forall k, name <> base ++ [UNDERSCORE] ++ str_of_nat k ++ ext).
  { intros k E. rewrite Hn in E. apply (f_equal (@List.length N)) in E.
    rewrite !length_app in E. simpl in E. lia. }
  destruct i as [|i], j as [|j]; unfold clobber_candidate; fold base ext;
    intros E; auto.
  - apply os_path_join_inj in E; [|apply Hst]. exfalso. exact (Hlen _ E).
  - apply os_path_join_inj in E; [|symmetry; apply Hst]. exfalso. exact (Hlen _ (eq_sym E)).
  - apply os_path_join_inj in E; [|now rewrite <- !Hst].
    apply app_inv_head in E. injection E as E.
    apply app_inv_tail in E. now apply str_of_nat_inj in E.
Qed.

Lemma clobber_loop_step (fuel : nat) (files : list str) (dir name : str) (k : nat) :
  clobber_loop (S fuel) files dir name (clobber_candidate dir name k) (S k) =
  if path_exists files (clobber_candidate dir name k)
  then clobber_loop fuel files dir name (clobber_candidate dir name (S k)) (S (S k))
  else Some (clobber_candidate dir name k).
Proof.
  cbn [clobber_loop]. destruct (path_exists _ _); [|reflexivity].
  cbn [clobber_candidate]. destruct (splitext name); reflexivity.
Qed.

Lemma clobber_loop_fresh (fuel : nat) (files : list str) (dir name fp : str)
    (counter : nat) (p : str) :
  clobber_loop fuel files dir name fp counter = Some p ->
  path_exists files p = false.
Proof.
  revert fp counter; induction fuel as [|fuel IH]; intros fp counter; simpl;
    [discriminate|].
  destruct (path_exists files fp) eqn:E.
  - destruct (splitext name). apply IH.
  - intros H; injection H as <-. exact E.
Qed.

(** With [n] failing tests from the [k]-th on and a free [k+n]-th
    candidate, the loop returns that candidate. *)
Lemma clobber_loop_run (n extra : nat) (files : list str) (dir name : str) (k : nat) :
  (forall j, k <= j < k + n -> path_exists files (clobber_candidate dir name j) = true) ->
  path_exists files (clobber_candidate dir name (k + n)) = false ->
  clobber_loop (S n + extra) files dir name (clobber_candidate dir name k) (S k)
  = Some (clobber_candidate dir name (k + n)).
Proof.
  revert k; induction n as [|n IH]; intros k Hbusy Hfree.
  - rewrite Nat.add_0_r in *. simpl plus. rewrite clobber_loop_step, Hfree. reflexivity.
  - simpl plus. rewrite clobber_loop_step, Hbusy by lia.
    replace (k + S n) with (S k + n) in * by lia.
    apply IH; [|exact Hfree]. intros j Hj. apply Hbusy. lia.
Qed.

Lemma clobber_loop_some (fuel : nat) (files : list str) (dir name : str) (k j : nat) :
  k <= j < k + fuel -> path_exists files (clobber_candidate dir name j) = false ->
  exists p, clobber_loop fuel files dir name (clobber_candidate dir name k) (S k) = Some p.
Proof.
  revert k; induction fuel as [|fuel IH]; intros k Hj Hfree; [lia|].
  rewrite clobber_loop_step.
  destruct (path_exists files (clobber_candidate dir name k)) eqn:E; [|eauto].
  apply IH; [|exact Hfree].
  assert (j <> k) by (intros ->; congruence). lia.
Qed.

Lemma NoDup_map_inj {A B} (f : A -> B) (l : list A) :
  (forall x y, f x = f y -> x = y) -> NoDup l -> NoDup (map f l).
Proof.
  intros Hf. induction 1 as [|x l Hx Hl IH]; simpl; constructor; [|exact IH].
  intros Hin. apply in_map_iff in Hin. destruct Hin as [y [Ey Hy]].
  apply Hf in Ey. subst. contradiction.
Qed.

Lemma path_exists_true (files : list str) (p : str) :
  path_exists files p = true <-> In p files.
Proof.
  unfold path_exists. rewrite existsb_exists. split.
  - intros [q [Hq E]]. apply str_eqb_spec in E. now subst.
  - intros H. exists p. split; [exact H|]. now apply str_eqb_spec.
Qed.

(** C5: the returned path does not exist when [prevent_clobber] is
    called, in every directory state and for every name; and when the
    directory holds exactly [a.txt], [a_1.txt], ..., [a_(N-1).txt]
    ([N >= 1]), the result is [a_N.txt] in that directory. *)
Theorem prevent_clobber_spec :
  (forall (files : list str) (dir name : str),
     exists p, prevent_clobber files dir name = Some p /\ path_exists files p = false) /\
  (forall (dir : str) (m : nat),
     prevent_clobber
       (os_path_join dir (u "a.txt")
        :: map (fun k => os_path_join dir (u "a_" ++ str_of_nat k ++ u ".txt"))
               (seq 1 m))
       dir (u "a.txt")
     = Some (os_path_join dir (u "a_" ++ str_of_nat (S m) ++ u ".txt"))).
Proof.
  split.
  - intros files dir name. unfold prevent_clobber.
    change (os_path_join dir name) with (clobber_candidate dir name 0).
    set (len := List.length files).
    destruct (find (fun j => negb (path_exists files (clobber_candidate dir name j)))
                   (seq 0 (S len))) as [j|] eqn:F.
    + apply find_some in F. destruct F as [Hin Hneg]. apply in_seq in Hin.
      apply negb_true_iff in Hneg.
      destruct (clobber_loop_some (S len) files dir name 0 j) as [p Hp];
        [lia|exact Hneg|].
      exists p. split; [exact Hp|]. exact (clobber_loop_fresh _ _ _ _ _ _ _ Hp).
    + exfalso. assert (Hall := find_none _ _ F).
      assert (Hincl : incl (map (clobber_candidate dir name) (seq 0 (S len))) files).
      { intros x Hx. apply in_map_iff in Hx. destruct Hx as [j [<- Hj]].
        specialize (Hall j Hj). apply negb_false_iff, path_exists_true in Hall.
        exact Hall. }
      apply NoDup_incl_length in Hincl.
      * rewrite length_map, length_seq in Hincl. unfold len in Hincl. lia.
      * apply NoDup_map_inj; [apply clobber_candidate_inj|apply seq_NoDup].
  - intros dir m.
    set (cand := clobber_candidate dir (u "a.txt")).
    assert (Hf : os_path_join dir (u "a.txt")
                 :: map (fun k => os_path_join dir (u "a_" ++ str_of_nat k ++ u ".txt"))
                        (seq 1 m)
                 = map cand (seq 0 (S m))).
    { simpl seq. simpl map at 2. f_equal. rewrite <- seq_shift, !map_map.
      apply map_ext. intros k. reflexivity. }
    rewrite Hf. unfold prevent_clobber. rewrite length_map, length_seq.
    change (os_path_join dir (u "a.txt")) with (cand 0).
    assert (H := clobber_loop_run (S m) 0 (map cand (seq 0 (S m))) dir (u "a.txt") 0).
    rewrite Nat.add_0_r, Nat.add_0_l in H. unfold cand in *. rewrite H.
    + reflexivity.
    + intros j Hj. apply path_exists_true, in_map, in_seq. lia.
    + apply path_exists_false. intros Hin. apply in_map_iff in Hin.
      destruct Hin as [x [Ex Hx]]. apply clobber_candidate_inj in Ex.
      apply in_seq in Hx. lia.
Qed.

(** ** [restrict_access] *)

(** Family mismatch never matches: an IPv4 client against an IPv6 entry,
    or an IPv6 client against an IPv4 entry. *)
Lemma family_mismatch_no_match (net : ip_network) (a : ip_addr) :
  net_v6 net = match a with IPv4Address _ => true | IPv6Address _ _ => false end ->
  net_contains net a = false.
Proof. destruct a; simpl; intros ->; reflexivity. Qed.

Lemma family_mismatch_not_equal (x y : Z) (s : option str) :
  ip_addr_eqb (IPv4Address x) (IPv6Address y s) = false /\
  ip_addr_eqb (IPv6Address y s) (IPv4Address x) = false.
Proof. split; reflexivity. Qed.

(** The loop raises only on an entry without [/] that is not an address. *)
Lemma allowed_loop_raises (client_ip : ip_addr) (l : list str) (e : exn) :
  allowed_loop client_ip l = inl e ->
  e = ValueError /\ exists ip, In ip l /\ contains N.eqb [SLASH] (py_strip ip) = false
                               /\ ip_address (py_strip ip) = None.
Proof.
  induction l as [|ip rest IH]; simpl; [discriminate|].
  destruct (contains N.eqb [SLASH] (py_strip ip)) eqn:Hs.
  - destruct (ip_network_of _); [destruct (net_contains _ _)|];
      try discriminate; intros H; destruct (IH H) as [He [x [Hx Hx']]];
      split; auto; exists x; auto.
  - destruct (ip_address (py_strip ip)) eqn:Ha.
    + destruct (ip_addr_eqb _ _); [discriminate|]. intros H.
      destruct (IH H) as [He [x [Hx Hx']]]. split; auto. exists x; auto.
    + intros H; injection H as <-. split; auto. exists ip; auto.
Qed.

(** When every entry without [/] is an address, the loop returns whether
    some entry admits the client. *)
Lemma allowed_loop_well_formed (client_ip : ip_addr) (l : list str) :
  (forall ip, In ip l -> contains N.eqb [SLASH] (py_strip ip) = false ->
              ip_address (py_strip ip) <> None) ->
  allowed_loop client_ip l = inr (existsb (entry_matches client_ip) l).
Proof.
  induction l as [|ip rest IH]; intros Hwf; simpl; [reflexivity|].
  assert (IH' := IH (fun x Hx => Hwf x (or_intror Hx))).
  unfold entry_matches at 1.
  destruct (contains N.eqb [SLASH] (py_strip ip)) eqn:Hs.
  - destruct (ip_network_of _); [destruct (net_contains _ _)|]; auto.
  - destruct (ip_address (py_strip ip)) eqn:Ha.
    + destruct (ip_addr_eqb _ _); auto.
    + exfalso. exact (Hwf ip (or_introl eq_refl) Hs Ha).
Qed.

(** C3 (code defect): an allow-list entry without [/] that is not an
    address makes [restrict_access] raise [ValueError] instead of being
    skipped, while the same kind of defect in an entry with [/] is
    skipped; an entry of the other address family only fails to match. *)
Theorem restrict_access_bad_plain_entry :
  restrict_access_result (Some (u "192.168.1.5,bogus")) (u "192.168.1.6") = inl ValueError /\
  restrict_access_result (Some (u "10.0.0.0/33,bogus/8,192.168.1.6")) (u "192.168.1.6") = inr true /\
  restrict_access_result (Some (u "::/0,::1,192.168.1.6")) (u "192.168.1.6") = inr true.
Proof. vm_compute. repeat split. Qed.

(** C4 (code defect, the one of C3): the examples of the specification
    hold, and an absent or empty allow-list admits every client; but with
    an entry that is not an address the check raises [ValueError] where
    no entry matches, instead of answering [False]. *)
Theorem restrict_access_examples :
  restrict_access_result (Some (u "10.0.0.0/8,192.168.1.5")) (u "10.1.2.3") = inr true /\
  restrict_access_result (Some (u "10.0.0.0/8,192.168.1.5")) (u "192.168.1.5") = inr true /\
  restrict_access_result (Some (u "10.0.0.0/8,192.168.1.5")) (u "192.168.1.6") = inr false /\
  (forall client, restrict_access_result None client = inr true) /\
  (forall client, restrict_access_result (Some []) client = inr true) /\
  restrict_access_result (Some (u "10.0.0.0/8,192.168.1.5,bogus")) (u "192.168.1.6")
    = inl ValueError.
Proof.
  split; [vm_compute; reflexivity|]. split; [vm_compute; reflexivity|].
  split; [vm_compute; reflexivity|]. split; [reflexivity|]. split; [reflexivity|].
  vm_compute; reflexivity.
Qed.

(** ** Splitting: pieces and the text they come from *)

Section SplitFacts.
Context {A : Type} (eqb : A -> A -> bool)
        (eqb_spec : forall x y, eqb x y = true <-> x = y).

Lemma startswith_spec (s p : list A) :
  startswith eqb s p = true -> exists r, s = p ++ r.
Proof.
  revert s; induction p as [|a p IH]; intros s H; simpl in H.
  - now exists s.
  - destruct s as [|c s]; [discriminate|].
    apply andb_true_iff in H. destruct H as [Ha H].
    apply eqb_spec in Ha; subst c. destruct (IH s H) as [r ->]. now exists r.
Qed.

Lemma endswith_spec (x p : list A) :
  endswith eqb x p = true -> exists y, x = y ++ p.
Proof.
  unfold endswith. intros H. apply startswith_spec in H. destruct H as [r Hr].
  exists (rev r). rewrite <- (rev_involutive x), Hr, rev_app_distr, rev_involutive.
  reflexivity.
Qed.

Lemma firstn_app_length (y p : list A) :
  firstn (List.length (y ++ p) - List.length p) (y ++ p) = y.
Proof.
  rewrite length_app, Nat.add_sub, firstn_app, Nat.sub_diag, firstn_all.
  simpl. apply app_nil_r.
Qed.

Lemma split_go_cons (sep s cur : list A) :
  exists x xs, split_go eqb sep s cur = x :: xs.
Proof.
  revert cur; induction s as [|a s IH]; intros cur; simpl; [eauto|].
  destruct (endswith eqb (cur ++ [a]) sep); eauto.
Qed.

(** Joining the pieces with the separator gives the text back. *)
Lemma split_go_join (sep s cur : list A) :
  join_with sep (split_go eqb sep s cur) = cur ++ s.
Proof.
  revert cur; induction s as [|a s IH]; intros cur; simpl.
  - now rewrite app_nil_r.
  - destruct (endswith eqb (cur ++ [a]) sep) eqn:E.
    + apply endswith_spec in E as [y Hy]. rewrite Hy, firstn_app_length.
      destruct (split_go_cons sep s []) as [x [xs Hx]]. rewrite Hx.
      replace (join_with sep (y :: x :: xs)) with (y ++ sep ++ join_with sep (x :: xs))
        by reflexivity.
      rewrite <- Hx, IH. simpl.
      rewrite app_assoc, <- Hy, <- app_assoc. reflexivity.
    + rewrite IH, <- app_assoc. reflexivity.
Qed.

Lemma split_join (s sep : list A) : join_with sep (split eqb s sep) = s.
Proof. apply split_go_join. Qed.

(** The two halves of [s.split(sep, 1)] with the separator between
    them give the text back. *)
Lemma split1_go_spec (sep s cur h d : list A) :
  split1_go eqb sep s cur = Some (h, d) -> cur ++ s = h ++ sep ++ d.
Proof.
  revert cur; induction s as [|a s IH]; intros cur; simpl; [discriminate|].
  destruct (endswith eqb (cur ++ [a]) sep) eqn:E.
  - intros H; injection H as <- <-.
    apply endswith_spec in E as [y Hy]. rewrite Hy, firstn_app_length.
    change (a :: s) with ([a] ++ s). rewrite app_assoc, Hy, <- app_assoc.
    reflexivity.
  - intros H. rewrite <- (IH _ H), <- app_assoc. reflexivity.
Qed.

Lemma split1_spec (s sep h d : list A) :
  split1 eqb s sep = Some (h, d) -> s = h ++ sep ++ d.
Proof. intros H. exact (split1_go_spec sep s [] h d H). Qed.
End SplitFacts.

Lemma byte_eqb_spec (x y : Byte.byte) : Byte.eqb x y = true <-> x = y.
Proof. split; [apply Byte.byte_dec_bl|apply Byte.byte_dec_lb]. Qed.

(** ** Handler lemmas *)

Create HintDb handler.

Lemma keeps_ret {A} (a : A) : keeps_written (ret a).
Proof. intros w; reflexivity. Qed.

Lemma keeps_raise {A} (e : exn) : keeps_written (@raise A e).
Proof. intros w; reflexivity. Qed.

Lemma keeps_lift {A} (r : exn + A) : keeps_written (lift r).
Proof. destruct r; intros w; reflexivity. Qed.

Lemma keeps_send_response (c : N) : keeps_written (send_response c).
Proof. intros w; unfold send_response; destruct (send_error w c); reflexivity. Qed.

Lemma keeps_print (e : log_entry) : keeps_written (print e).
Proof. intros w; unfold print; destruct (print_error w e); reflexivity. Qed.

Lemma keeps_makedirs (d : str) : keeps_written (makedirs d).
Proof.
  intros w; unfold makedirs.
  destruct (path_exists (fail_paths w) d), (path_exists (paths w) d); reflexivity.
Qed.

Lemma keeps_prevent_clobber_m (d f : str) : keeps_written (prevent_clobber_m d f).
Proof. intros w; unfold prevent_clobber_m. destruct (prevent_clobber _ _ _); reflexivity. Qed.

Lemma keeps_restrict_access (cfg : config) (req : request) :
  keeps_written (restrict_access cfg req).
Proof.
  intros w; unfold restrict_access.
  destruct (restrict_access_result _ _) as [e|[|]]; try reflexivity.
  unfold bind, send_response. destruct (send_error w 403); reflexivity.
Qed.

Lemma keeps_bind {A B} (m : M A) (k : A -> M B) :
  keeps_written m -> (forall a, keeps_written (k a)) -> keeps_written (bind m k).
Proof.
  intros Hm Hk w. specialize (Hm w). unfold bind.
  destruct (m w) as [[a|e|] w'] eqn:E; simpl in *; auto.
  rewrite (Hk a w'); exact Hm.
Qed.

Lemma bind_ret {A B} (a : A) (k : A -> M B) : bind (ret a) k = k a.
Proof. reflexivity. Qed.

Lemma writes_of_keeps {A} (Q : str * bytes -> Prop) (m : M A) :
  keeps_written m -> writes_at_most_one Q m.
Proof. intros H w; left; apply H. Qed.

Lemma writes_bind_first {A B} Q (m : M A) (k : A -> M B) :
  writes_at_most_one Q m -> (forall a, keeps_written (k a)) ->
  writes_at_most_one Q (bind m k).
Proof.
  intros Hm Hk w. specialize (Hm w). unfold bind.
  destruct (m w) as [[a|e|] w'] eqn:E; simpl in *; auto.
  rewrite (Hk a w'); exact Hm.
Qed.

Lemma writes_bind_then {A B} Q (m : M A) (k : A -> M B) :
  keeps_written m -> (forall a, writes_at_most_one Q (k a)) ->
  writes_at_most_one Q (bind m k).
Proof.
  intros Hm Hk w. specialize (Hm w). unfold bind.
  destruct (m w) as [[a|e|] w'] eqn:E; simpl in *; auto.
  rewrite <- Hm. apply Hk.
Qed.

Lemma writes_catch {A} Q (m : M A) (h : exn -> M A) :
  writes_at_most_one Q m -> (forall e, keeps_written (h e)) ->
  writes_at_most_one Q (catch m h).
Proof.
  intros Hm Hh w. specialize (Hm w). unfold catch.
  destruct (m w) as [[a|e|] w'] eqn:E; simpl in *; auto.
  rewrite (Hh e w'); exact Hm.
Qed.

Lemma writes_weaken {A} (Q Q' : str * bytes -> Prop) (m : M A) :
  (forall x, Q x -> Q' x) -> writes_at_most_one Q m -> writes_at_most_one Q' m.
Proof.
  intros HQ Hm w. destruct (Hm w) as [H|[x [Hx H]]]; [now left|].
  right; exists x; auto.
Qed.

Lemma writes_write_file (p : str) (data : bytes) :
  writes_at_most_one (fun x => snd x = data) (write_file p data).
Proof.
  intros w; unfold write_file. destruct (path_exists (fail_paths w) p).
  - now left.
  - right. exists (p, data). split; reflexivity.
Qed.

#[local] Hint Resolve keeps_ret keeps_raise keeps_lift keeps_send_response keeps_print
  keeps_makedirs keeps_prevent_clobber_m keeps_restrict_access keeps_bind : handler.

(** The content [parse_part] returns follows the first CRLF CRLF. *)
Lemma parse_part_data (part : bytes) (fn : str) (data : bytes) :
  parse_part part = inr (fn, data) ->
  exists h, split1 Byte.eqb part CRLFCRLF = Some (h, data).
Proof.
  unfold parse_part. destruct (split1 Byte.eqb part CRLFCRLF) as [[h d]|]; [|discriminate].
  destruct (utf8_decode h); [|discriminate].
  destruct (re_search_filename _); [|discriminate].
  intros H; injection H as _ <-. eauto.
Qed.

Lemma writes_save_part (isalnum : N -> bool) (cfg : config) (req : request) (part : bytes) :
  writes_at_most_one (fun x => exists h, split1 Byte.eqb part CRLFCRLF = Some (h, snd x))
    (save_part isalnum cfg req part).
Proof.
  unfold save_part. destruct (parse_part part) as [e|[fn data]] eqn:Hp; simpl lift.
  - intros w; left; reflexivity.
  - destruct (parse_part_data part fn data Hp) as [h Hh].
    rewrite bind_ret. cbv beta iota.
    apply writes_bind_then.
    { destruct (organize_uploads cfg); auto with handler. }
    intros folder. apply writes_bind_then; [apply keeps_prevent_clobber_m|].
    intros file_path. apply writes_bind_first.
    + eapply writes_weaken; [|apply writes_write_file].
      intros x Hx. exists h. rewrite Hx. exact Hh.
    + intros _; auto with handler.
Qed.

Lemma writes_handle_parts (isalnum : N -> bool) (cfg : config) (req : request)
      (parts : list bytes) :
  writes_at_most_one
    (fun x => exists part h, first_marker_part parts part /\
                             split1 Byte.eqb part CRLFCRLF = Some (h, snd x))
    (handle_parts isalnum cfg req parts).
Proof.
  induction parts as [|part rest IH]; simpl.
  - apply writes_of_keeps, keeps_ret.
  - destruct (contains Byte.eqb MARKER part) eqn:Hm.
    + apply writes_bind_first; [|intros; apply keeps_ret].
      eapply writes_weaken; [|apply writes_save_part].
      intros x [h Hh]. exists part, h. split; [|exact Hh].
      exists [], rest. auto.
    + eapply writes_weaken; [|exact IH].
      intros x [p [h [[pre [post [Hparts [Hpre Hp]]]] Hh]]].
      exists p, h. split; [|exact Hh].
      exists (part :: pre), post. rewrite Hparts. auto.
Qed.

Lemma writes_upload (isalnum : N -> bool) (cfg : config) (req : request) (ct : str) :
  writes_at_most_one
    (fun x => exists n bnd part h,
        content_length req = inr n /\ boundary_of ct = inr bnd /\
        first_marker_part (split Byte.eqb (rfile_read (rfile req) n) (DASHDASH ++ bnd)) part /\
        split1 Byte.eqb part CRLFCRLF = Some (h, snd x))
    (upload isalnum cfg req ct).
Proof.
  unfold upload. destruct (content_length req) as [e|n] eqn:Hn; simpl lift.
  - intros w; left; reflexivity.
  - rewrite bind_ret. destruct (read_length_ok n); simpl lift.
    { intros w; left; reflexivity. }
    rewrite bind_ret. destruct (boundary_of ct) as [e|bnd] eqn:Hb; simpl lift.
    + intros w; left; reflexivity.
    + rewrite bind_ret. eapply writes_weaken; [|apply writes_handle_parts].
      intros x [part [h [Hp Hh]]]. exists n, bnd, part, h. auto.
Qed.

(** C6: a POST request writes at most one file, and the bytes it writes
    are those after the first CRLF CRLF of the first piece, of the body
    split on the exact bytes [--<boundary>], that holds the marker
    [filename=] followed by a quote; later pieces with the marker are not
    looked at. *)
Theorem do_POST_at_most_one_file (isalnum : N -> bool) (cfg : config) (req : request)
        (w : world) :
  let w' := snd (do_POST isalnum cfg req w) in
  written w' = written w \/
  exists file_path data,
    written w' = written w ++ [(file_path, data)] /\
    exists content_type n bnd part h,
      header_get (req_headers req) (u "Content-Type") = Some content_type /\
      content_length req = inr n /\
      boundary_of content_type = inr bnd /\
      first_marker_part (split Byte.eqb (rfile_read (rfile req) n) (DASHDASH ++ bnd)) part /\
      split1 Byte.eqb part CRLFCRLF = Some (h, data).
Proof.
  cbv zeta. revert w.
  cut (writes_at_most_one
         (fun x => exists content_type n bnd part h,
             header_get (req_headers req) (u "Content-Type") = Some content_type /\
             content_length req = inr n /\
             boundary_of content_type = inr bnd /\
             first_marker_part (split Byte.eqb (rfile_read (rfile req) n) (DASHDASH ++ bnd)) part /\
             split1 Byte.eqb part CRLFCRLF = Some (h, snd x))
         (do_POST isalnum cfg req)).
  { intros H w. destruct (H w) as [E|[[p d] [Hx E]]]; [now left|].
    right. exists p, d. split; [exact E|exact Hx]. }
  unfold do_POST. destruct (str_eqb (req_path req) [SLASH]).
  2: apply writes_of_keeps, keeps_ret.
  apply writes_bind_then; [apply keeps_restrict_access|]. intros allowed.
  destruct allowed; simpl negb; cbv iota.
  2: apply writes_of_keeps, keeps_ret.
  destruct (header_get (req_headers req) (u "Content-Type")) as [ct|] eqn:Hct.
  2: intros w; left; reflexivity.
  rewrite bind_ret. apply writes_bind_first.
  2: intros r; destruct r; auto with handler.
  destruct (startswith N.eqb ct (u "multipart/form-data")).
  2: apply writes_of_keeps, keeps_ret.
  apply writes_catch; [|intros e; auto with handler].
  eapply writes_weaken; [|apply writes_upload].
  intros x [n [bnd [part [h [Hn [Hb [Hp Hh]]]]]]]. exists ct, n, bnd, part, h. auto.
Qed.

(** ** Extraction *)

(** C2 (code defect): the handler saves the bytes after the first CRLF
    CRLF of the part up to the next [--<boundary>], and never trims the
    CRLF that precedes that delimiter.  On the specification's example,
    [report.txt] is saved with [hello] followed by that CRLF, two bytes
    more than the [hello] the client sent. *)
Lemma extract_report_keeps_crlf :
  extract report_content_type report_body = inr (Some (u "report.txt", b "hello" ++ CRLF)) /\
  written (snd (do_POST ascii_isalnum default_config report_request empty_world))
    = [(u "/srv/uploads/report.txt", b "hello" ++ CRLF)] /\
  b "hello" ++ CRLF <> b "hello".
Proof.
  split; [vm_compute; reflexivity|]. split; [vm_compute; reflexivity|].
  vm_compute; discriminate.
Qed.

(** ** Failures of a POST request *)

Lemma keeps_io_ret {A} (a : A) : keeps_io (ret a).
Proof. intros w; auto. Qed.

Lemma keeps_io_raise {A} (e : exn) : keeps_io (@raise A e).
Proof. intros w; auto. Qed.

Lemma keeps_io_lift {A} (r : exn + A) : keeps_io (lift r).
Proof. destruct r; intros w; auto. Qed.

Lemma keeps_io_send_response (c : N) : keeps_io (send_response c).
Proof. intros w; unfold send_response. destruct (send_error w c); auto. Qed.

Lemma keeps_io_print (l : log_entry) : keeps_io (print l).
Proof. intros w; unfold print. destruct (print_error w l); auto. Qed.

Lemma keeps_io_makedirs (d : str) : keeps_io (makedirs d).
Proof.
  intros w; unfold makedirs.
  destruct (path_exists (fail_paths w) d), (path_exists (paths w) d); auto.
Qed.

Lemma keeps_io_write_file (p : str) (data : bytes) : keeps_io (write_file p data).
Proof. intros w; unfold write_file. destruct (path_exists (fail_paths w) p); auto. Qed.

Lemma keeps_io_prevent_clobber_m (d f : str) : keeps_io (prevent_clobber_m d f).
Proof. intros w; unfold prevent_clobber_m. destruct (prevent_clobber _ _ _); auto. Qed.

Lemma keeps_io_bind {A B} (m : M A) (k : A -> M B) :
  keeps_io m -> (forall a, keeps_io (k a)) -> keeps_io (bind m k).
Proof.
  intros Hm Hk w. specialize (Hm w). unfold bind.
  destruct (m w) as [[a|e|] w'] eqn:E; simpl in *; auto.
  destruct (Hk a w') as [H1 H2]. destruct Hm as [H3 H4]. split; congruence.
Qed.

Lemma keeps_io_catch {A} (m : M A) (h : exn -> M A) :
  keeps_io m -> (forall e, keeps_io (h e)) -> keeps_io (catch m h).
Proof.
  intros Hm Hh w. specialize (Hm w). unfold catch.
  destruct (m w) as [[a|e|] w'] eqn:E; simpl in *; auto.
  destruct (Hh e w') as [H1 H2]. destruct Hm as [H3 H4]. split; congruence.
Qed.

#[local] Hint Resolve keeps_io_ret keeps_io_raise keeps_io_lift keeps_io_send_response
  keeps_io_print keeps_io_makedirs keeps_io_write_file keeps_io_prevent_clobber_m
  keeps_io_bind : handler.

Lemma keeps_io_save_part (isalnum : N -> bool) (cfg : config) (req : request)
      (part : bytes) : keeps_io (save_part isalnum cfg req part).
Proof.
  unfold save_part. apply keeps_io_bind; [auto with handler|]. intros [fn data].
  apply keeps_io_bind; [destruct (organize_uploads cfg); auto with handler|].
  intros folder. auto with handler.
Qed.

Lemma keeps_io_handle_parts (isalnum : N -> bool) (cfg : config) (req : request)
      (parts : list bytes) : keeps_io (handle_parts isalnum cfg req parts).
Proof.
  induction parts as [|part rest IH]; simpl; [auto with handler|].
  destruct (contains Byte.eqb MARKER part); [|exact IH].
  apply keeps_io_bind; [apply keeps_io_save_part|auto with handler].
Qed.

Lemma keeps_io_upload (isalnum : N -> bool) (cfg : config) (req : request) (ct : str) :
  keeps_io (upload isalnum cfg req ct).
Proof.
  unfold upload. apply keeps_io_bind; [auto with handler|]. intros n.
  apply keeps_io_bind; [auto with handler|]. intros _.
  apply keeps_io_bind; [auto with handler|]. intros bnd.
  apply keeps_io_handle_parts.
Qed.

Lemma raises_only_io_ret {A} (a : A) : raises_only_io (ret a).
Proof. intros w e; discriminate. Qed.

Lemma raises_only_io_send_response (c : N) : raises_only_io (send_response c).
Proof.
  intros w e. unfold send_response. destruct (send_error w c) as [x|] eqn:E; [|discriminate].
  intros H; injection H as <-. left; exists c; exact E.
Qed.

Lemma raises_only_io_print (l : log_entry) : raises_only_io (print l).
Proof.
  intros w e. unfold print. destruct (print_error w l) as [x|] eqn:E; [|discriminate].
  intros H; injection H as <-. right; exists l; exact E.
Qed.

Lemma raises_only_io_bind {A B} (m : M A) (k : A -> M B) :
  keeps_io m -> raises_only_io m -> (forall a, raises_only_io (k a)) ->
  raises_only_io (bind m k).
Proof.
  intros Hkeep Hm Hk w e. specialize (Hm w). specialize (Hkeep w). unfold bind.
  destruct (m w) as [[a|e'|] w'] eqn:E; simpl in *.
  - intros H. destruct (Hk a w' e H) as [[c Hc]|[l Hl]]; destruct Hkeep as [H1 H2].
    + left; exists c; congruence.
    + right; exists l; congruence.
  - intros H; injection H as Heq; subst; exact (Hm _ eq_refl).
  - discriminate.
Qed.

Lemma raises_only_io_catch {A} (m : M A) (h : exn -> M A) :
  keeps_io m -> (forall e, raises_only_io (h e)) -> raises_only_io (catch m h).
Proof.
  intros Hkeep Hh w e. specialize (Hkeep w). unfold catch.
  destruct (m w) as [[a|e'|] w'] eqn:E; simpl in *; try discriminate.
  intros H. destruct (Hh e' w' e H) as [[c Hc]|[l Hl]]; destruct Hkeep as [H1 H2].
  - left; exists c; congruence.
  - right; exists l; congruence.
Qed.

(** For an authorized POST to [/] that has a Content-Type header, every
    exception of reading, parsing and saving is caught: the request
    raises only when answering with a status or printing a line fails.
    A content type that is not [multipart/form-data] is answered with
    400 and nothing else, when that answer can be sent. *)
Lemma do_POST_with_content_type (isalnum : N -> bool) (cfg : config) (req : request)
      (content_type : str) :
  req_path req = [SLASH] ->
  restrict_access_result (allowed_ip cfg) (client_host req) = inr true ->
  header_get (req_headers req) (u "Content-Type") = Some content_type ->
  raises_only_io (do_POST isalnum cfg req) /\
  (startswith N.eqb content_type (u "multipart/form-data") = false ->
   forall w, send_error w 400 = None ->
   do_POST isalnum cfg req w =
   (Ok tt, mkWorld (paths w) (fail_paths w) (written w)
                   (responses w ++ [400%N]) (log w) (send_error w) (print_error w))).
Proof.
  intros Hpath Hauth Hct.
  unfold do_POST, restrict_access. rewrite Hpath, Hauth, Hct. simpl str_eqb.
  cbv iota. rewrite !bind_ret. simpl negb. cbv iota. split.
  - apply raises_only_io_bind.
    + destruct (startswith N.eqb content_type (u "multipart/form-data")).
      * apply keeps_io_catch; [apply keeps_io_upload|auto with handler].
      * apply keeps_io_ret.
    + destruct (startswith N.eqb content_type (u "multipart/form-data")).
      * apply raises_only_io_catch; [apply keeps_io_upload|]. intros e.
        apply raises_only_io_bind;
          [apply keeps_io_print|apply raises_only_io_print|intros; apply raises_only_io_ret].
      * apply raises_only_io_ret.
    + intros [|]; [apply raises_only_io_ret|apply raises_only_io_send_response].
  - intros Hmp w H400. rewrite Hmp. cbv [bind ret send_response].
    change (str_eqb [SLASH] [SLASH]) with true. change (negb true) with false. cbv beta iota. rewrite H400. reflexivity.
Qed.

(** C7 (code defect): an authorized POST to [/] without a Content-Type
    header raises [AttributeError] ([None.startswith]) before the [try],
    so no 400 is sent and nothing is logged by the handler. *)
Theorem do_POST_missing_content_type_raises :
  do_POST ascii_isalnum default_config missing_type_request empty_world
  = (Exc AttributeError, empty_world).
Proof. vm_compute. reflexivity. Qed.

(** ** Sanitising at concrete names *)

(** C1 fails as stated: a name holding [../] is sanitised to the
    parent-directory component [..]. *)
Lemma sanitize_parent_dir :
  contains N.eqb (u "../") (u "a/../../") = true /\
  sanitize_filename ascii_isalnum (u "a/../../") = [DOT; DOT] /\
  sanitize_filename ascii_isalnum (u "../") = [DOT; DOT].
Proof. vm_compute. repeat split. Qed.

Lemma sanitize_one_component_witness :
  (forall c, (c < 128)%N -> ascii_isalnum c = ascii_isalnum c) /\
  ~ In SLASH (sanitize_filename ascii_isalnum (u "../../etc/passwd")) /\
  (sanitize_filename ascii_isalnum (u "../../etc/passwd") = [DOT; DOT] <->
   normpath (u "../../etc/passwd") = [DOT; DOT]).
Proof.
  split; [intros c _; reflexivity|].
  apply (sanitize_one_component ascii_isalnum (fun c _ => eq_refl)).
Defined.

Lemma sanitize_idempotent_witness :
  (forall c, (c < 128)%N -> ascii_isalnum c = ascii_isalnum c) /\
  sanitize_filename ascii_isalnum (sanitize_filename ascii_isalnum (u "/x/../a b.txt"))
  = sanitize_filename ascii_isalnum (u "/x/../a b.txt").
Proof.
  split; [intros c _; reflexivity|].
  apply (sanitize_idempotent ascii_isalnum (fun c _ => eq_refl)).
Defined.

Lemma sanitize_total_witness :
  (forall c, (c < 128)%N -> ascii_isalnum c = ascii_isalnum c) /\
  exists out, sanitize_filename ascii_isalnum (u "$*") = out /\ out <> [] /\
    Forall (fun c => keep_char ascii_isalnum c = true) out /\
    (u "$*" = [] -> out = [DOT]) /\
    (u "$*" <> [] -> Forall (fun c => keep_char ascii_isalnum c = false) (u "$*") ->
     Forall (fun c => c = UNDERSCORE) out).
Proof.
  split; [intros c _; reflexivity|].
  apply (sanitize_total ascii_isalnum (fun c _ => eq_refl)).
Defined.

(** * Further properties of the code *)

(** ** [prevent_clobber]: the first free candidate *)

Lemma clobber_loop_first (fuel : nat) (files : list str) (dir name : str) (k : nat)
      (p : str) :
  clobber_loop fuel files dir name (clobber_candidate dir name k) (S k) = Some p ->
  exists n, p = clobber_candidate dir name (k + n) /\
            forall j, k <= j < k + n -> path_exists files (clobber_candidate dir name j) = true.
Proof.
  revert k; induction fuel as [|fuel IH]; intros k; [discriminate|].
  rewrite clobber_loop_step.
  destruct (path_exists files (clobber_candidate dir name k)) eqn:Hk.
  - intros H. destruct (IH (S k) H) as [n [-> Hn]].
    exists (S n). split; [f_equal; lia|].
    intros j Hj. destruct (Nat.eq_dec j k) as [->|Hjk]; [exact Hk|]. apply Hn; lia.
  - intros H; injection H as <-. exists 0. split; [f_equal; lia|]. intros j Hj; lia.
Qed.

(** [prevent_clobber] returns the first candidate that does not exist:
    [upload_folder/filename] if it is free, else [upload_folder/base_k.ext]
    for the least [k >= 1] whose path is free, every earlier candidate
    existing. *)
Theorem prevent_clobber_first_free (files : list str) (dir name p : str) :
  prevent_clobber files dir name = Some p ->
  exists k, p = clobber_candidate dir name k /\
            path_exists files p = false /\
            forall j, j < k -> path_exists files (clobber_candidate dir name j) = true.
Proof.
  unfold prevent_clobber. intros H.
  assert (Hf := clobber_loop_fresh _ _ _ _ _ _ _ H).
  change (os_path_join dir name) with (clobber_candidate dir name 0) in H.
  destruct (clobber_loop_first _ _ _ _ 0 p H) as [n [-> Hn]].
  exists n. split; [reflexivity|]. split; [exact Hf|].
  intros j Hj. apply Hn. lia.
Qed.

Lemma prevent_clobber_first_free_witness :
  prevent_clobber [u "up/a.txt"; u "up/a_1.txt"] (u "up") (u "a.txt") = Some (u "up/a_2.txt") /\
  exists k, u "up/a_2.txt" = clobber_candidate (u "up") (u "a.txt") k /\
            path_exists [u "up/a.txt"; u "up/a_1.txt"] (u "up/a_2.txt") = false /\
            forall j, j < k ->
              path_exists [u "up/a.txt"; u "up/a_1.txt"] (clobber_candidate (u "up") (u "a.txt") j)
              = true.
Proof.
  split; [vm_compute; reflexivity|].
  apply prevent_clobber_first_free. vm_compute. reflexivity.
Defined.

(** ** [os.path.splitext] *)

Lemma rfind_go_spec (l : str) (c : N) (i best : Z) :
  (rfind_go l c i best = best /\ ~ In c l) \/
  ((i <= rfind_go l c i best)%Z /\
   nth_error l (Z.to_nat (rfind_go l c i best - i)) = Some c /\
   ~ In c (skipn (S (Z.to_nat (rfind_go l c i best - i))) l)).
Proof.
  revert i best; induction l as [|x t IH]; intros i best; simpl; [left; auto|].
  destruct (IH (i + 1)%Z (if N.eqb x c then i else best)) as [[E Hn]|[Hle [Hnth Hs]]].
  - rewrite E. destruct (N.eqb x c) eqn:Hx.
    + apply N.eqb_eq in Hx; subst x. right. rewrite Z.sub_diag. simpl. auto with zarith.
    + apply N.eqb_neq in Hx. left. split; [reflexivity|]. intros [->|H]; auto.
  - right. set (r := rfind_go t c (i + 1) _) in *.
    assert (Hr : Z.to_nat (r - i) = S (Z.to_nat (r - (i + 1)))) by lia.
    rewrite Hr. simpl. split; [lia|]. auto.
Qed.

Lemma rfind_spec (l : str) (c : N) :
  (rfind l c = (-1)%Z /\ ~ In c l) \/
  ((0 <= rfind l c)%Z /\ nth_error l (Z.to_nat (rfind l c)) = Some c /\
   ~ In c (skipn (S (Z.to_nat (rfind l c))) l)).
Proof.
  unfold rfind. destruct (rfind_go_spec l c 0 (-1)) as [H|[H1 [H2 H3]]]; [now left|].
  rewrite Z.sub_0_r in H2, H3. right. auto.
Qed.

Lemma skipn_nth_error {A} (l : list A) (n : nat) (x : A) :
  nth_error l n = Some x -> skipn n l = x :: skipn (S n) l.
Proof.
  revert n; induction l as [|y l IH]; intros [|n] H; simpl in *; try discriminate.
  - now injection H as ->.
  - now apply IH.
Qed.

Lemma in_skipn_in {A} (l : list A) (n : nat) (x : A) : In x (skipn n l) -> In x l.
Proof.
  intros H. rewrite <- (firstn_skipn n l). apply in_or_app. now right.
Qed.

Lemma in_skipn_le {A} (l : list A) (m n : nat) (x : A) :
  m <= n -> In x (skipn n l) -> In x (skipn m l).
Proof.
  intros Hmn. replace n with ((n - m) + m) by lia.
  rewrite <- skipn_skipn. apply in_skipn_in.
Qed.

(** [os.path.splitext(p)] cuts [p] in two: root and extension put
    together give [p] back, and the extension is empty or a [.] followed
    by characters that are neither [.] nor [/]. *)
Theorem splitext_parts (p : str) :
  fst (splitext p) ++ snd (splitext p) = p /\
  (snd (splitext p) = [] \/
   exists t, snd (splitext p) = DOT :: t /\ ~ In DOT t /\ ~ In SLASH t).
Proof.
  split; [symmetry; apply splitext_app|].
  unfold splitext.
  destruct (Z.ltb (rfind p SLASH) (rfind p DOT)) eqn:Hlt; [|now left].
  destruct (existsb _ _); [|now left]. right. simpl.
  apply Z.ltb_lt in Hlt.
  destruct (rfind_spec p DOT) as [[E _]|[Hd0 [Hd Hdn]]].
  { pose proof (rfind_go_ge p SLASH 0 (-1)). unfold rfind in *. lia. }
  rewrite (skipn_nth_error _ _ _ Hd).
  exists (skipn (S (Z.to_nat (rfind p DOT))) p). split; [reflexivity|]. split; [exact Hdn|].
  intros Hin. destruct (rfind_spec p SLASH) as [[_ Hs]|[Hs0 [_ Hsn]]].
  - apply Hs. exact (in_skipn_in _ _ _ Hin).
  - apply Hsn. revert Hin. apply in_skipn_le. lia.
Qed.

(** ** Joining a sanitised name *)

(** [os.path.join(upload_folder, sanitize_filename(name))] never drops
    the upload folder: the sanitised name has no [/], so it is appended
    to the folder, with a [/] between them unless the folder is empty or
    already ends in [/]. *)
Theorem join_sanitized (isalnum : N -> bool)
        (isalnum_ascii : forall c, (c < 128)%N -> isalnum c = ascii_isalnum c)
        (dir s : str) :
  os_path_join dir (sanitize_filename isalnum s) =
  dir ++ (if is_empty dir || endswith N.eqb dir [SLASH] then [] else [SLASH])
      ++ sanitize_filename isalnum s.
Proof.
  unfold os_path_join.
  assert (Hs := sanitize_no_slash isalnum isalnum_ascii s).
  assert (Hne : sanitize_filename isalnum s <> []).
  { unfold sanitize_filename. intros E. apply map_eq_nil in E.
    exact (normpath_nonempty s E). }
  destruct (sanitize_filename isalnum s) as [|c t]; [congruence|].
  replace (startswith N.eqb (c :: t) [SLASH]) with false.
  2:{ assert (Hc : N.eqb SLASH c = false)
        by (apply N.eqb_neq; intros E; apply Hs; left; auto).
      cbn [startswith]. rewrite Hc. reflexivity. }
  destruct dir as [|d ds]; [reflexivity|]. simpl is_empty; simpl orb.
  destruct (endswith N.eqb (d :: ds) [SLASH]); reflexivity.
Qed.

Lemma join_sanitized_witness :
  os_path_join (u "up") (sanitize_filename ascii_isalnum (u "../a b")) =
  u "up" ++ (if is_empty (u "up") || endswith N.eqb (u "up") [SLASH] then [] else [SLASH])
         ++ sanitize_filename ascii_isalnum (u "../a b").
Proof. apply (join_sanitized ascii_isalnum (fun c _ => eq_refl)). Defined.

(** ** The allow-list loop of [restrict_access] *)

Lemma allowed_loop_raises_witness :
  allowed_loop (IPv4Address 1) [u "10.0.0.0/8"; u "bogus"] = inl ValueError /\
  (ValueError = ValueError /\
   exists ip, In ip [u "10.0.0.0/8"; u "bogus"] /\
              contains N.eqb [SLASH] (py_strip ip) = false /\ ip_address (py_strip ip) = None).
Proof.
  split; [vm_compute; reflexivity|].
  apply (allowed_loop_raises (IPv4Address 1) _ ValueError). vm_compute. reflexivity.
Defined.

Lemma allowed_loop_well_formed_witness :
  allowed_loop (IPv4Address 167772161) [u "192.168.0.1"; u " 10.0.0.0/8"] =
  inr (existsb (entry_matches (IPv4Address 167772161)) [u "192.168.0.1"; u " 10.0.0.0/8"]).
Proof.
  apply allowed_loop_well_formed.
  intros ip [<-|[<-|[]]]; vm_compute; [intros _ H; discriminate H|intros H; discriminate H].
Defined.

Lemma do_POST_with_content_type_witness :
  (raises_only_io (do_POST ascii_isalnum default_config report_request) /\
   (startswith N.eqb report_content_type (u "multipart/form-data") = false ->
    forall w, send_error w 400 = None ->
    do_POST ascii_isalnum default_config report_request w =
    (Ok tt, mkWorld (paths w) (fail_paths w) (written w)
                    (responses w ++ [400%N]) (log w) (send_error w) (print_error w)))) /\
  (raises_only_io (do_POST ascii_isalnum default_config text_request) /\
   (startswith N.eqb (u "text/plain") (u "multipart/form-data") = false ->
    forall w, send_error w 400 = None ->
    do_POST ascii_isalnum default_config text_request w =
    (Ok tt, mkWorld (paths w) (fail_paths w) (written w)
                    (responses w ++ [400%N]) (log w) (send_error w) (print_error w)))).
Proof.
  split.
  - apply (do_POST_with_content_type ascii_isalnum default_config report_request
             report_content_type); reflexivity.
  - apply (do_POST_with_content_type ascii_isalnum default_config text_request
             (u "text/plain")); reflexivity.
Defined.

(** ** The UTF-8 codecs: [boundary.encode()] and [headers.decode()] *)

Local Open Scope N_scope.

Lemma divmod64 (c : N) : c = 64 * (c / 64) + c mod 64 /\ c mod 64 < 64.
Proof. split; [apply N.div_mod; lia|apply N.mod_lt; lia]. Qed.

Lemma div_4096 (c : N) : c / 4096 = c / 64 / 64.
Proof. rewrite N.Div0.div_div. reflexivity. Qed.

Lemma div_262144 (c : N) : c / 262144 = c / 64 / 64 / 64.
Proof. rewrite !N.Div0.div_div. reflexivity. Qed.

(** Names for the base-64 digits of a code point. *)
Ltac base64_digits c :=
  try rewrite (div_262144 c) in *; try rewrite (div_4096 c) in *;
  pose proof (divmod64 c); pose proof (divmod64 (c / 64));
  pose proof (divmod64 (c / 64 / 64));
  set (q3 := c / 64 / 64 / 64) in *; set (r2 := c / 64 / 64 mod 64) in *;
  set (q2 := c / 64 / 64) in *; set (r1 := c / 64 mod 64) in *;
  set (q1 := c / 64) in *; set (r0 := c mod 64) in *;
  clearbody q3 r2 q2 r1 q1 r0.

(** Case analysis on the comparisons of a goal, closing the cases the
    arithmetic facts exclude. *)
Ltac n_cases :=
  repeat (match goal with
          | |- context [N.eqb ?a ?b] =>
              let E := fresh "E" in
              destruct (N.eqb a b) eqn:E; [apply N.eqb_eq in E|apply N.eqb_neq in E]
          | |- context [N.ltb ?a ?b] =>
              let E := fresh "E" in
              destruct (N.ltb a b) eqn:E; [apply N.ltb_lt in E|apply N.ltb_ge in E]
          | |- context [N.leb ?a ?b] =>
              let E := fresh "E" in
              destruct (N.leb a b) eqn:E; [apply N.leb_le in E|apply N.leb_gt in E]
          end; cbv beta iota delta [andb orb negb]; try (exfalso; lia)).

Lemma utf8_scalar_spec (c : N) :
  utf8_scalar c = true <-> c <= 1114111 /\ ~ (55296 <= c <= 57343).
Proof.
  unfold utf8_scalar. split.
  - n_cases; intros H; try discriminate; lia.
  - intros H. n_cases; reflexivity.
Qed.

Lemma byte_of_N_to_N (n : N) : n < 256 -> Byte.to_N (byte_of_N n) = n.
Proof.
  unfold byte_of_N. destruct (Byte.of_N n) eqn:E.
  - intros _. now apply Byte.to_of_N.
  - apply Byte.of_N_None_iff in E. lia.
Qed.

Lemma byte_of_N_of_to (x : Byte.byte) : byte_of_N (Byte.to_N x) = x.
Proof. unfold byte_of_N. now rewrite Byte.of_to_N. Qed.

Lemma utf8_encode_go_decode (s : str) :
  forallb utf8_scalar s = true ->
  exists l, utf8_encode_go s = Some l /\ Forall (fun n => n < 256) l /\
            utf8_decode_go l = Some s.
Proof.
  induction s as [|c s IH]; cbn [utf8_encode_go forallb]; [intros _; exists []; auto|].
  intros H. apply andb_true_iff in H. destruct H as [Hc Hs].
  apply utf8_scalar_spec in Hc.
  destruct (IH Hs) as [l [Hl [Hb Hd]]]. rewrite Hl.
  base64_digits c.
  n_cases; cbv beta iota delta [option_map];
    eexists; (split; [reflexivity|]);
    (split; [repeat (apply Forall_cons; [lia|]); exact Hb|]);
    cbn [utf8_decode_go]; unfold utf8_cont; n_cases; rewrite Hd; cbv beta iota delta [option_map];
    do 2 f_equal; lia.
Qed.

Lemma utf8_encode_one (c b0 : N) (s : str) (l : list N) :
  b0 < 128 -> c = b0 -> utf8_encode_go s = Some l ->
  utf8_encode_go (c :: s) = Some (b0 :: l).
Proof.
  intros Hb -> Hl. cbn [utf8_encode_go]. rewrite Hl.
  replace (N.ltb b0 128) with true by (symmetry; apply N.ltb_lt; lia). reflexivity.
Qed.

Lemma utf8_encode_two (c b0 b1 : N) (s : str) (l : list N) :
  194 <= b0 <= 223 -> 128 <= b1 < 192 -> c = (b0 - 192) * 64 + (b1 - 128) ->
  utf8_encode_go s = Some l -> utf8_encode_go (c :: s) = Some (b0 :: b1 :: l).
Proof.
  intros H0 H1 Hc Hl. cbn [utf8_encode_go]. rewrite Hl.
  base64_digits c. n_cases. cbv beta iota delta [option_map]. repeat f_equal; lia.
Qed.

Lemma utf8_encode_three (c b0 b1 b2 : N) (s : str) (l : list N) :
  224 <= b0 <= 239 -> (if N.eqb b0 224 then 160 else 128) <= b1 ->
  b1 <= (if N.eqb b0 237 then 159 else 191) -> 128 <= b2 < 192 ->
  c = (b0 - 224) * 4096 + (b1 - 128) * 64 + (b2 - 128) ->
  utf8_encode_go s = Some l -> utf8_encode_go (c :: s) = Some (b0 :: b1 :: b2 :: l).
Proof.
  intros H0 Hlo Hhi H2 Hc Hl. cbn [utf8_encode_go]. rewrite Hl.
  destruct (N.eqb_spec b0 224); destruct (N.eqb_spec b0 237); try lia;
  base64_digits c; n_cases; cbv beta iota delta [option_map]; repeat f_equal; lia.
Qed.

Lemma utf8_encode_four (c b0 b1 b2 b3 : N) (s : str) (l : list N) :
  240 <= b0 <= 244 -> (if N.eqb b0 240 then 144 else 128) <= b1 ->
  b1 <= (if N.eqb b0 244 then 143 else 191) -> 128 <= b2 < 192 -> 128 <= b3 < 192 ->
  c = (b0 - 240) * 262144 + (b1 - 128) * 4096 + (b2 - 128) * 64 + (b3 - 128) ->
  utf8_encode_go s = Some l -> utf8_encode_go (c :: s) = Some (b0 :: b1 :: b2 :: b3 :: l).
Proof.
  intros H0 Hlo Hhi H2 H3 Hc Hl. cbn [utf8_encode_go]. rewrite Hl.
  destruct (N.eqb_spec b0 240); destruct (N.eqb_spec b0 244); try lia;
  base64_digits c; n_cases; cbv beta iota delta [option_map]; repeat f_equal; lia.
Qed.

Lemma utf8_cont_spec (x : N) : utf8_cont x = true <-> 128 <= x < 192.
Proof.
  unfold utf8_cont. rewrite andb_true_iff, N.leb_le, N.ltb_lt. lia.
Qed.

Lemma decode_step {rest : list N} {x : N} {s : str} :
  option_map (cons x) (utf8_decode_go rest) = Some s ->
  exists s', s = x :: s' /\ utf8_decode_go rest = Some s'.
Proof.
  destruct (utf8_decode_go rest) as [s'|]; [|discriminate].
  intros H; injection H as <-. eauto.
Qed.

Lemma utf8_decode_go_encode (n : nat) :
  forall l s, (List.length l <= n)%nat -> utf8_decode_go l = Some s ->
  utf8_encode_go s = Some l.
Proof.
  induction n as [|n IH]; intros l s Hlen Hd.
  { destruct l; [|simpl in Hlen; lia]. injection Hd as <-. reflexivity. }
  destruct l as [|b0 r]; [injection Hd as <-; reflexivity|].
  cbn [utf8_decode_go] in Hd. simpl in Hlen.
  destruct (N.ltb b0 128) eqn:E0.
  { apply N.ltb_lt in E0. destruct (decode_step Hd) as [s' [-> Hr]].
    apply (utf8_encode_one _ b0); auto. apply (IH r); auto; lia. }
  apply N.ltb_ge in E0.
  destruct (N.leb 194 b0 && N.leb b0 223) eqn:E1.
  { apply andb_true_iff in E1. rewrite !N.leb_le in E1.
    destruct r as [|b1 r]; [discriminate|].
    destruct (utf8_cont b1) eqn:C1; [|discriminate]. apply utf8_cont_spec in C1.
    destruct (decode_step Hd) as [s' [-> Hr]].
    apply utf8_encode_two; auto. apply (IH r); auto. simpl in Hlen; lia. }
  destruct (N.leb 224 b0 && N.leb b0 239) eqn:E2.
  { apply andb_true_iff in E2. rewrite !N.leb_le in E2.
    destruct r as [|b1 [|b2 r]]; try discriminate.
    match type of Hd with
    | (if ?cond then _ else _) = _ => destruct cond eqn:C; [|discriminate]
    end.
    rewrite !andb_true_iff, !N.leb_le, utf8_cont_spec in C.
    destruct C as [[Hlo Hhi] C2].
    destruct (decode_step Hd) as [s' [-> Hr]].
    apply utf8_encode_three; auto. apply (IH r); auto. simpl in Hlen; lia. }
  destruct (N.leb 240 b0 && N.leb b0 244) eqn:E3; [|discriminate].
  apply andb_true_iff in E3. rewrite !N.leb_le in E3.
  destruct r as [|b1 [|b2 [|b3 r]]]; try discriminate.
  match type of Hd with
  | (if ?cond then _ else _) = _ => destruct cond eqn:C; [|discriminate]
  end.
  rewrite !andb_true_iff, !N.leb_le, !utf8_cont_spec in C.
  destruct C as [[[Hlo Hhi] C2] C3].
  destruct (decode_step Hd) as [s' [-> Hr]].
  apply utf8_encode_four; auto. apply (IH r); auto. simpl in Hlen; lia.
Qed.

Lemma utf8_encode_go_none (s : str) :
  forallb utf8_scalar s = false -> utf8_encode_go s = None.
Proof.
  induction s as [|c s IH]; cbn [forallb]; [discriminate|].
  intros H. cbn [utf8_encode_go].
  destruct (utf8_scalar c) eqn:Hc.
  - rewrite (IH H). n_cases; reflexivity.
  - assert (Hc' : ~ (c <= 1114111 /\ ~ (55296 <= c <= 57343)))
      by (rewrite <- utf8_scalar_spec; congruence).
    n_cases; reflexivity.
Qed.

Lemma utf8_encode_go_bytes (l : list N) :
  Forall (fun n => n < 256) l -> map Byte.to_N (map byte_of_N l) = l.
Proof.
  induction 1 as [|x l Hx _ IH]; [reflexivity|].
  cbn [map]. rewrite byte_of_N_to_N by exact Hx. f_equal. exact IH.
Qed.

Local Close Scope N_scope.

(** [str.encode()] (the boundary, line 99) fails exactly on a string
    holding a surrogate or a code point above U+10FFFF; the bytes it
    returns are decoded by [bytes.decode()] back into the string. *)
Theorem utf8_encode_decode (s : str) :
  (utf8_encode s = None <-> forallb utf8_scalar s = false) /\
  (forall bs, utf8_encode s = Some bs -> utf8_decode bs = Some s).
Proof.
  unfold utf8_encode, utf8_decode. split.
  - split.
    + intros H. destruct (forallb utf8_scalar s) eqn:E; [|reflexivity].
      destruct (utf8_encode_go_decode s E) as [l [Hl _]].
      rewrite Hl in H. discriminate.
    + intros H. rewrite (utf8_encode_go_none s H). reflexivity.
  - intros bs H. destruct (forallb utf8_scalar s) eqn:E.
    + destruct (utf8_encode_go_decode s E) as [l [Hl [Hb Hd]]].
      rewrite Hl in H. injection H as <-. rewrite utf8_encode_go_bytes by exact Hb.
      exact Hd.
    + rewrite (utf8_encode_go_none s E) in H. discriminate.
Qed.

(** [bytes.decode()] (the part headers, line 105) accepts only bytes
    that are the UTF-8 encoding of the text it returns: encoding that
    text gives the same bytes back. *)
Theorem utf8_decode_encode (bs : bytes) (s : str) :
  utf8_decode bs = Some s -> utf8_encode s = Some bs.
Proof.
  unfold utf8_decode, utf8_encode. intros H.
  rewrite (utf8_decode_go_encode (List.length (map Byte.to_N bs)) _ s (le_n _) H).
  cbv beta iota delta [option_map]. f_equal.
  rewrite map_map. rewrite <- (map_id bs) at 2. apply map_ext. apply byte_of_N_of_to.
Qed.

Lemma utf8_decode_encode_witness :
  utf8_decode [Byte.xc3; Byte.xa9] = Some [233%N] /\
  utf8_encode [233%N] = Some [Byte.xc3; Byte.xa9].
Proof.
  split; [reflexivity|]. apply utf8_decode_encode. reflexivity.
Defined.

(** ** What [re.search(r'filename=...(.+)...', s).group(1)] returns *)

Lemma last_quote_none (l : str) (i : nat) :
  last_quote l i = None -> 1 <= i -> ~ In QUOTE l.
Proof.
  revert i; induction l as [|c l IH]; intros i H Hi; [intros []|].
  cbn [last_quote] in H. destruct (last_quote l (S i)) eqn:E; [discriminate|].
  intros [Hc|Hin].
  - subst c. rewrite N.eqb_refl in H. destruct (Nat.leb_spec 1 i); [discriminate|lia].
  - exact (IH (S i) E ltac:(lia) Hin).
Qed.

Lemma last_quote_some (l : str) (i j : nat) :
  last_quote l i = Some j ->
  exists a after, l = a ++ QUOTE :: after /\ j = i + List.length a /\ 1 <= j /\ ~ In QUOTE after.
Proof.
  revert i; induction l as [|c l IH]; intros i H; [discriminate|].
  cbn [last_quote] in H. destruct (last_quote l (S i)) as [k|] eqn:E.
  - injection H as <-. destruct (IH (S i) E) as [a [after [Hl [Hk [H1 Hn]]]]].
    exists (c :: a), after. subst l. simpl. repeat split; auto; lia.
  - destruct (N.eqb_spec c QUOTE); [|discriminate].
    destruct (Nat.leb_spec 1 i); [|discriminate]. injection H as <-. subst c.
    exists [], l. simpl. repeat split; auto; try lia.
    apply (last_quote_none l (S i) E). lia.
Qed.

Lemma take_line_spec (s : str) :
  ~ In NEWLINE (take_line s) /\
  exists rest, s = take_line s ++ rest /\ (rest = [] \/ exists t, rest = NEWLINE :: t).
Proof.
  induction s as [|c s [IHn [rest [IHs IHr]]]]; cbn [take_line].
  - split; [intros []|]. exists []. auto.
  - destruct (N.eqb_spec c NEWLINE).
    + split; [intros []|]. exists (c :: s). subst c. split; [reflexivity|eauto].
    + split.
      * intros [Hc|Hin]; [congruence|contradiction].
      * exists rest. split; [simpl; f_equal; exact IHs|exact IHr].
Qed.

Lemma take_line_app (a rest : str) :
  ~ In NEWLINE a -> (rest = [] \/ exists t, rest = NEWLINE :: t) ->
  take_line (a ++ rest) = a.
Proof.
  induction a as [|c a IH]; intros Ha Hr; cbn [app take_line].
  - destruct Hr as [->|[t ->]]; [reflexivity|]. cbn [take_line]. rewrite N.eqb_refl. reflexivity.
  - destruct (N.eqb_spec c NEWLINE) as [E|E]; [exfalso; apply Ha; left; auto|].
    f_equal. apply IH; auto. intros Hin; apply Ha; right; exact Hin.
Qed.

Lemma match_at_sound (s g : str) :
  match_at s = Some g ->
  exists post, s = FILENAME_EQ ++ g ++ QUOTE :: post /\ g <> [] /\
               ~ In NEWLINE g /\ ~ In QUOTE (take_line post).
Proof.
  unfold match_at.
  destruct (startswith N.eqb s FILENAME_EQ) eqn:Hs; [|discriminate].
  apply (startswith_spec N.eqb (fun x y => N.eqb_eq x y)) in Hs as [r ->].
  rewrite skipn_app, skipn_all, Nat.sub_diag. cbn [skipn app].
  destruct (take_line_spec r) as [Hnl [rest [Hr Hrest]]].
  destruct (last_quote (take_line r) 0) as [j|] eqn:Hq; [|discriminate].
  intros H; injection H as <-.
  destruct (last_quote_some _ _ _ Hq) as [a [after [Hl [Hj [H1 Hn]]]]].
  rewrite Hl in *. simpl in Hj. subst j.
  rewrite firstn_app, Nat.sub_diag, firstn_all. cbn [firstn]. rewrite app_nil_r.
  exists (after ++ rest). split; [|split; [|split]].
  - rewrite Hr, <- app_assoc. reflexivity.
  - intros ->. simpl in H1. lia.
  - intros Hin; apply Hnl, in_or_app; left; exact Hin.
  - rewrite take_line_app; auto.
    intros Hin; apply Hnl, in_or_app; right; right; exact Hin.
Qed.

(** When the search for [filename=], a [QUOTE], a group and a [QUOTE]
    finds a match, the group is not empty and holds no newline, it sits
    in the text right after [filename=] and a [QUOTE] and right before a
    [QUOTE], and that closing [QUOTE] is the last one of its line (the
    group is greedy and [.] stops at a newline). *)
Theorem re_search_filename_sound (s g : str) :
  re_search_filename s = Some g ->
  exists pre post, s = pre ++ FILENAME_EQ ++ g ++ QUOTE :: post /\ g <> [] /\
                   ~ In NEWLINE g /\ ~ In QUOTE (take_line post).
Proof.
  induction s as [|c s IH]; cbn [re_search_filename]; intros H.
  - destruct (match_at []) as [g'|] eqn:E; [|discriminate]. injection H as <-.
    destruct (match_at_sound _ _ E) as [post Hp]. exists [], post. exact Hp.
  - destruct (match_at (c :: s)) as [g'|] eqn:E.
    + injection H as <-. destruct (match_at_sound _ _ E) as [post Hp]. exists [], post. exact Hp.
    + destruct (IH H) as [pre [post [Hs Hrest]]]. exists (c :: pre), post.
      split; [rewrite Hs; reflexivity|exact Hrest].
Qed.

Lemma re_search_filename_sound_witness :
  re_search_filename (u "name=x; filename=" ++ [QUOTE] ++ u "a.txt" ++ [QUOTE])
    = Some (u "a.txt") /\
  exists pre post, u "name=x; filename=" ++ [QUOTE] ++ u "a.txt" ++ [QUOTE]
                   = pre ++ FILENAME_EQ ++ u "a.txt" ++ QUOTE :: post /\ u "a.txt" <> [] /\
                   ~ In NEWLINE (u "a.txt") /\ ~ In QUOTE (take_line post).
Proof.
  split; [reflexivity|]. apply re_search_filename_sound. reflexivity.
Defined.

(** ** Splitting the form data and a part *)

(** A list without an occurrence of [sep] is written
    [~ exists y z, x = y ++ sep ++ z] below. *)
Section Occurrences.
Context {A : Type} (eqb : A -> A -> bool)
        (eqb_spec : forall x y, eqb x y = true <-> x = y).

Lemma startswith_app (p r : list A) : startswith eqb (p ++ r) p = true.
Proof.
  induction p as [|a p IH]; [reflexivity|]. cbn [app startswith].
  rewrite IH, andb_true_r. apply eqb_spec. reflexivity.
Qed.

Lemma endswith_app (y p : list A) : endswith eqb (y ++ p) p = true.
Proof. unfold endswith. rewrite rev_app_distr. apply startswith_app. Qed.

Lemma no_occ_nil (sep : list A) : sep <> [] -> ~ exists y z, [] = y ++ sep ++ z.
Proof.
  intros Hs [y [z E]]. apply Hs. destruct y, sep; simpl in E; congruence.
Qed.

Lemma no_occ_step (sep cur : list A) (a : A) :
  endswith eqb (cur ++ [a]) sep = false ->
  (~ exists y z, cur = y ++ sep ++ z) ->
  ~ exists y z, cur ++ [a] = y ++ sep ++ z.
Proof.
  intros He Hc [y [z E]].
  destruct z as [|x z'] using rev_ind.
  - rewrite app_nil_r in E. rewrite E, endswith_app in He. discriminate.
  - rewrite !app_assoc in E. apply app_inj_tail in E as [E _].
    apply Hc. exists y, z'. rewrite E, <- !app_assoc. reflexivity.
Qed.

Lemma no_occ_cut (sep cur x : list A) (a : A) :
  sep <> [] -> cur ++ [a] = x ++ sep ->
  (~ exists y z, cur = y ++ sep ++ z) ->
  ~ exists y z, x = y ++ sep ++ z.
Proof.
  intros Hs E Hc [y [z Ex]].
  destruct sep as [|s0 s'] using rev_ind; [congruence|].
  rewrite Ex, !app_assoc in E. apply app_inj_tail in E as [E _].
  apply Hc. exists y, (z ++ s'). rewrite E, <- !app_assoc. reflexivity.
Qed.

Lemma split_go_no_occ (sep s cur : list A) :
  sep <> [] -> (~ exists y z, cur = y ++ sep ++ z) ->
  Forall (fun part => ~ exists y z, part = y ++ sep ++ z) (split_go eqb sep s cur).
Proof.
  intros Hs. revert cur; induction s as [|a s IH]; intros cur Hc; cbn [split_go].
  - constructor; [exact Hc|constructor].
  - destruct (endswith eqb (cur ++ [a]) sep) eqn:E.
    + destruct (endswith_spec eqb eqb_spec _ _ E) as [x Hx].
      rewrite Hx, firstn_app_length. constructor.
      * exact (no_occ_cut sep cur x a Hs Hx Hc).
      * apply IH, no_occ_nil, Hs.
    + apply IH, no_occ_step; assumption.
Qed.

Lemma split1_go_some_no_occ (sep s cur h d : list A) :
  sep <> [] -> (~ exists y z, cur = y ++ sep ++ z) ->
  split1_go eqb sep s cur = Some (h, d) -> ~ exists y z, h = y ++ sep ++ z.
Proof.
  intros Hs. revert cur; induction s as [|a s IH]; intros cur Hc; cbn [split1_go];
    [discriminate|].
  destruct (endswith eqb (cur ++ [a]) sep) eqn:E.
  - intros H; injection H as <- <-.
    destruct (endswith_spec eqb eqb_spec _ _ E) as [x Hx].
    rewrite Hx, firstn_app_length. exact (no_occ_cut sep cur x a Hs Hx Hc).
  - apply IH, no_occ_step; assumption.
Qed.

Lemma split1_go_none_no_occ (sep s cur : list A) :
  (~ exists y z, cur = y ++ sep ++ z) ->
  split1_go eqb sep s cur = None -> ~ exists y z, cur ++ s = y ++ sep ++ z.
Proof.
  revert cur; induction s as [|a s IH]; intros cur Hc; cbn [split1_go].
  - rewrite app_nil_r. auto.
  - destruct (endswith eqb (cur ++ [a]) sep) eqn:E; [discriminate|].
    intros H. replace (cur ++ a :: s) with ((cur ++ [a]) ++ s)
      by (rewrite <- app_assoc; reflexivity).
    apply IH; [apply no_occ_step|]; assumption.
Qed.
End Occurrences.

(** The parts of [form_data.split(b'--' + boundary)], joined again with
    the separator, give back the bytes read, and no part holds the
    separator. *)
Theorem multipart_parts (form bnd : bytes) :
  join_with (DASHDASH ++ bnd) (split Byte.eqb form (DASHDASH ++ bnd)) = form /\
  Forall (fun part => ~ exists y z, part = y ++ (DASHDASH ++ bnd) ++ z)
         (split Byte.eqb form (DASHDASH ++ bnd)).
Proof.
  split.
  - apply split_join, byte_eqb_spec.
  - apply (split_go_no_occ Byte.eqb byte_eqb_spec); [discriminate|].
    apply no_occ_nil. discriminate.
Qed.

Lemma multipart_parts_witness :
  List.length (split Byte.eqb report_body (DASHDASH ++ b "XYZ")) = 3%nat /\
  (join_with (DASHDASH ++ b "XYZ") (split Byte.eqb report_body (DASHDASH ++ b "XYZ"))
     = report_body /\
   Forall (fun part => ~ exists y z, part = y ++ (DASHDASH ++ b "XYZ") ++ z)
          (split Byte.eqb report_body (DASHDASH ++ b "XYZ"))).
Proof. split; [vm_compute; reflexivity|apply multipart_parts]. Defined.

(** [headers, data = part.split(b'\r\n\r\n', 1)] with what follows:
    it raises [ValueError] exactly when the part holds no blank line;
    on success the part is the headers, the first blank line and the
    data, the headers hold no blank line, and the filename is the one
    found in the decoded headers. *)
Theorem parse_part_spec (part : bytes) :
  (parse_part part = inl ValueError <-> ~ exists y z, part = y ++ CRLFCRLF ++ z) /\
  (forall filename data, parse_part part = inr (filename, data) ->
     exists headers cd, part = headers ++ CRLFCRLF ++ data /\
       ~ (exists y z, headers = y ++ CRLFCRLF ++ z) /\
       utf8_decode headers = Some cd /\ re_search_filename cd = Some filename).
Proof.
  unfold parse_part.
  destruct (split1 Byte.eqb part CRLFCRLF) as [[h d]|] eqn:Hs.
  - assert (Hp := split1_spec Byte.eqb byte_eqb_spec _ _ _ _ Hs).
    assert (Hh := split1_go_some_no_occ Byte.eqb byte_eqb_spec CRLFCRLF part [] h d
                    ltac:(discriminate) (no_occ_nil CRLFCRLF ltac:(discriminate)) Hs).
    split.
    + split.
      * destruct (utf8_decode h); [destruct (re_search_filename _)|]; discriminate.
      * intros Hn. exfalso. apply Hn. exists h, d. exact Hp.
    + intros filename data.
      destruct (utf8_decode h) as [cd|] eqn:Hd; [|discriminate].
      destruct (re_search_filename cd) as [g|] eqn:Hr; [|discriminate].
      intros H; injection H as <- <-. exists h, cd. auto.
  - split.
    + split; [|reflexivity]. intros _.
      exact (split1_go_none_no_occ Byte.eqb byte_eqb_spec CRLFCRLF part []
               (no_occ_nil CRLFCRLF ltac:(discriminate)) Hs).
    + discriminate.
Qed.

Lemma parse_part_spec_witness :
  parse_part (nth 1 (split Byte.eqb report_body (DASHDASH ++ b "XYZ")) [])
    = inr (u "report.txt", b "hello" ++ CRLF) /\
  (exists headers cd,
     nth 1 (split Byte.eqb report_body (DASHDASH ++ b "XYZ")) []
       = headers ++ CRLFCRLF ++ b "hello" ++ CRLF /\
     ~ (exists y z, headers = y ++ CRLFCRLF ++ z) /\
     utf8_decode headers = Some cd /\ re_search_filename cd = Some (u "report.txt")) /\
  parse_part (b "abc") = inl ValueError /\
  ~ (exists y z, b "abc" = y ++ CRLFCRLF ++ z).
Proof.
  split; [vm_compute; reflexivity|]. split.
  - apply (proj2 (parse_part_spec (nth 1 (split Byte.eqb report_body (DASHDASH ++ b "XYZ")) [])));
      vm_compute; reflexivity.
  - split; [vm_compute; reflexivity|].
    apply (proj1 (parse_part_spec (b "abc"))). vm_compute. reflexivity.
Defined.


(** ** A network entry and its own address *)

Lemma contains_single (c : N) (s : str) : contains N.eqb [c] s = true <-> In c s.
Proof.
  induction s as [|x s IH]; cbn [contains startswith]; [split; [discriminate|intros []]|].
  rewrite andb_true_r, orb_true_iff, IH, N.eqb_eq. simpl. intuition congruence.
Qed.

Lemma split_go_single (c : N) (s cur : str) :
  ~ In c s -> split_go N.eqb [c] s cur = [cur ++ s].
Proof.
  revert cur; induction s as [|x s IH]; intros cur Hs; cbn [split_go].
  - rewrite app_nil_r. reflexivity.
  - replace (endswith N.eqb (cur ++ [x]) [c]) with false.
    + rewrite IH by (intros H; apply Hs; right; exact H).
      rewrite <- app_assoc. reflexivity.
    + unfold endswith. rewrite rev_app_distr. cbn [rev app startswith].
      symmetry. rewrite andb_true_r. apply N.eqb_neq. intros ->. apply Hs. left; auto.
Qed.

Lemma in_join_with (x : N) (sep : str) (xs : list str) :
  In x (join_with sep xs) -> In x sep \/ exists y, In y xs /\ In x y.
Proof.
  induction xs as [|y xs IH]; [intros []|].
  destruct xs as [|y' xs']; cbn [join_with].
  - intros H. right. exists y. split; [left|]; auto.
  - intros H. apply in_app_or in H as [H|H]; [right; exists y; split; [left|]; auto|].
    apply in_app_or in H as [H|H]; [left; exact H|].
    destruct (IH H) as [Hs|[z [Hz Hxz]]]; [left; exact Hs|].
    right. exists z. split; [right|]; auto.
Qed.

Lemma octets_value_digits (os : list str) (acc v : Z) :
  octets_value os acc = Some v -> Forall (fun o => forallb is_ascii_digit o = true) os.
Proof.
  revert acc; induction os as [|o os IH]; intros acc H; [constructor|].
  cbn [octets_value] in H. destruct (parse_octet o) as [x|] eqn:Ho; [|discriminate].
  constructor; [|exact (IH _ H)].
  unfold parse_octet in Ho. destruct o as [|c0 o']; [discriminate|].
  destruct (forallb is_ascii_digit (c0 :: o')); [reflexivity|discriminate].
Qed.

Lemma ipv4_address_no_colon (s : str) (v : Z) : ipv4_address s = Some v -> ~ In COLON s.
Proof.
  unfold ipv4_address. destruct (contains N.eqb [SLASH] s); [discriminate|].
  unfold ipv4_int_from_string. destruct s as [|c s']; [discriminate|].
  destruct (Nat.eqb _ 4); [|discriminate]. cbn [negb].
  intros H Hin. apply octets_value_digits in H.
  rewrite <- (split_join N.eqb (fun x y => N.eqb_eq x y) (c :: s') [DOT]) in Hin.
  apply in_join_with in Hin as [Hd|[o [Ho Hc]]].
  - destruct Hd as [Hd|[]]. discriminate.
  - rewrite Forall_forall in H. specialize (H o Ho). rewrite forallb_forall in H.
    specialize (H COLON Hc). discriminate.
Qed.

Lemma ipv6_int_no_colon (s : str) : ~ In COLON s -> ipv6_int_from_string s = None.
Proof.
  intros Hs. unfold ipv6_int_from_string. destruct s as [|c s']; [reflexivity|].
  unfold split. rewrite split_go_single by exact Hs. reflexivity.
Qed.

Lemma ipv6_address_no_colon (s : str) : ~ In COLON s -> ipv6_address s = None.
Proof.
  intros Hs. unfold ipv6_address. destruct (contains N.eqb [SLASH] s); [reflexivity|].
  unfold split_scope_id. destruct (split1 N.eqb s [PERCENT]) as [[a sc]|] eqn:E.
  - apply (split1_spec N.eqb (fun x y => N.eqb_eq x y)) in E.
    destruct (is_empty sc || contains N.eqb [PERCENT] sc); [reflexivity|].
    rewrite ipv6_int_no_colon; [reflexivity|].
    intros H; apply Hs; rewrite E; apply in_or_app; left; exact H.
  - rewrite ipv6_int_no_colon by exact Hs. reflexivity.
Qed.

(** A CIDR entry of the allow list ([ip_network(ip, strict=False)])
    admits the address written before its [/], whatever its host bits,
    whenever the entry is a valid network: a client whose address is
    that one is let in by the entry. *)
Theorem cidr_entry_admits_own_address (entry addr m : str) (a : ip_addr) :
  split N.eqb (py_strip entry) [SLASH] = [addr; m] ->
  ip_address addr = Some a ->
  ip_network_of (py_strip entry) <> None ->
  entry_matches a entry = true.
Proof.
  intros Hsplit Ha Hnet. unfold entry_matches.
  replace (contains N.eqb [SLASH] (py_strip entry)) with true.
  2:{ symmetry. destruct (contains N.eqb [SLASH] (py_strip entry)) eqn:Hc; [reflexivity|].
      assert (Hn : ~ In SLASH (py_strip entry))
        by (intros H; apply contains_single in H; congruence).
      unfold split in Hsplit. rewrite split_go_single in Hsplit by exact Hn.
      discriminate. }
  destruct (ip_network_of (py_strip entry)) as [net|] eqn:En; [|congruence].
  unfold ip_network_of, ipv4_network, ipv6_network, split_addr_prefix in En.
  rewrite Hsplit in En.
  unfold ip_address in Ha.
  destruct (ipv4_address addr) as [v|] eqn:E4.

  - injection Ha as <-.
    destruct (make_netmask4 (MaskStr m)) as [p|].
    + injection En as <-. unfold net_contains. cbn [net_v6 netmask network_address negb andb].
      rewrite Z.eqb_refl. reflexivity.
    + rewrite (ipv6_address_no_colon addr (ipv4_address_no_colon addr v E4)) in En.
      discriminate.
  - destruct (ipv6_address addr) as [[v sc]|] eqn:E6; [|discriminate].
    injection Ha as <-.
    destruct (make_netmask6 (MaskStr m)) as [p|]; [|discriminate].
    injection En as <-. unfold net_contains. cbn [net_v6 netmask network_address negb andb].
    rewrite Z.eqb_refl. reflexivity.
Qed.

Lemma cidr_entry_admits_own_address_witness :
  entry_matches (IPv4Address 167838211) (u " 10.1.2.3/8") = true.
Proof.
  apply (cidr_entry_admits_own_address (u " 10.1.2.3/8") (u "10.1.2.3") (u "8")).
  - vm_compute. reflexivity.
  - vm_compute. reflexivity.
  - vm_compute. discriminate.
Defined.

(** ** Responses and writes of the handlers *)

Ltac world_simpl :=
  cbn [paths fail_paths written responses log send_error print_error].







(** [do_POST] writes a file or creates a directory only for a request
    to [/] from a client [restrict_access] admits. *)
Theorem do_POST_writes_only_authorized (isalnum : N -> bool) (cfg : config)
        (req : request) (w : world) :
  (written (snd (do_POST isalnum cfg req w)) <> written w \/
   paths (snd (do_POST isalnum cfg req w)) <> paths w) ->
  req_path req = [SLASH] /\
  restrict_access_result (allowed_ip cfg) (client_host req) = inr true.
Proof.
  unfold do_POST. destruct (str_eqb (req_path req) [SLASH]) eqn:Hp.
  2:{ unfold ret. cbn [snd]. intros [H|H]; congruence. }
  apply (seq_eqb_spec N.eqb N.eqb_eq) in Hp.
  unfold restrict_access, bind, raise, ret, send_response.
  destruct (restrict_access_result (allowed_ip cfg) (client_host req)) as [e|[|]];
    [cbn; intros [H|H]; congruence|auto|].
  world_simpl. destruct (send_error w 403); cbn; intros [H|H]; congruence.
Qed.

Lemma do_POST_writes_only_authorized_witness :
  written (snd (do_POST ascii_isalnum default_config report_request empty_world))
    = [(u "/srv/uploads/report.txt", b "hello" ++ CRLF)] /\
  req_path report_request = [SLASH] /\
  restrict_access_result (allowed_ip default_config) (client_host report_request) = inr true.
Proof.
  split; [vm_compute; reflexivity|].
  apply (do_POST_writes_only_authorized ascii_isalnum default_config report_request
           empty_world).
  left. vm_compute. discriminate.
Defined.

(** [do_GET] never touches the file system or the terminal log; it
    sends 200 only to an admitted client asking for [/], 403 to a
    refused one asking for [/], and otherwise nothing. *)
Theorem do_GET_effect (cfg : config) (req : request) (w : world) :
  match do_GET cfg req w with
  | (r, w') =>
      paths w' = paths w /\ fail_paths w' = fail_paths w /\
      written w' = written w /\ log w' = log w /\
      (responses w' = responses w \/
       (r = Ok tt /\ responses w' = responses w ++ [200%N] /\ req_path req = [SLASH] /\
        restrict_access_result (allowed_ip cfg) (client_host req) = inr true) \/
       (r = Ok tt /\ responses w' = responses w ++ [403%N] /\ req_path req = [SLASH] /\
        restrict_access_result (allowed_ip cfg) (client_host req) = inr false))
  end.
Proof.
  unfold do_GET. destruct (str_eqb (req_path req) [SLASH]) eqn:Hp.
  2:{ unfold ret. auto 10. }
  apply (seq_eqb_spec N.eqb N.eqb_eq) in Hp.
  unfold restrict_access, bind, raise, ret, send_response.
  destruct (restrict_access_result (allowed_ip cfg) (client_host req)) as [e|[|]];
    cbn [negb]; [auto 10| |].
  - destruct (send_error w 200); cbn; auto 10.
  - destruct (send_error w 403); cbn; auto 10.
Qed.
